(** * Batched collection operations and paginated queries of the
      salesforce REST client (composite.go, calls.go, salesforce.go)

    A shallow embedding of the collection-write engine
    ([CompositeCall], [DeleteRecords] and their three wrappers), of the
    failure filter [OpResponses.Errors] and of the query loop
    ([Service.query] with [RecordSlice]), followed by the properties the
    specification states about them.

    Conventions.
    - Go's [error] is [goerror]; a [nil] error is [None].
    - A Go slice that may be [nil] on return is an [option (list _)].
    - Slice lengths and loop indexes are [nat]: an index never exceeds
      [len(recs)] by more than the batch size (at most 2000), far below
      the range of [int].  Caller supplied [int]s ([batchSize],
      [maxrows], [startIndex]) are [Z]; the one addition on such a
      value, in [Errors], wraps at 64 bits.
    - [RecordMap] is a Go map, a reference: maps live in a [Heap] and an
      entity holds the location, so aliasing between the caller's list
      and the transmitted batch is kept. *)

From Stdlib Require Import ZArith Lia.
From stdpp Require Import base option list gmap strings.

Open Scope string_scope.
Open Scope list_scope.

(** ** Data model *)

Definition goerror := string.

(** [ErrZeroRecords], composite.go *)
Definition ErrZeroRecords : goerror := "must have at least 1 record".

(** [Attributes], the attribute block of a record *)
Record Attributes := mkAttributes {
  Type_ : string;
  URL : string;
  Ref : string
}.

(** Values a [RecordMap] (a [map[string]interface{}]) can hold, split by
    the dynamic types that [RecordMap.SObjectName] tells apart.  Of a
    nested [map[string]interface{}] only the [.(string)] assertion on its
    values is ever used: a value is [Some s] when it is the string [s]
    and [None] when it has another dynamic type.  A [*Attributes] is a
    non-nil pointer; the block it points to is never written after
    allocation, so it is kept by value. *)
Inductive AnyVal :=
| VString (s : string)
| VMapAny (m : gmap string (option string))
| VMapString (m : gmap string string)
| VAttributes (a : Attributes)
| VAttributesPtr (a : Attributes)
| VOther (tag : nat).

Definition loc := positive.
Abbreviation Heap := (gmap loc (gmap string AnyVal)).

(** Structs produced by the generator (Contact, Account, CustomTable,
    TestRec): a fixed API name, the [Attributes] pointer field and the
    remaining fields, which the engine never looks at. *)
Record StructRec := mkStructRec {
  sr_apiName : string;
  sr_Attributes : option Attributes;
  sr_fields : list (string * string)
}.

(** The implementations of the [SObject] interface in the repository. *)
Inductive SObject :=
| SStruct (s : StructRec)
| SRecordMap (m : option loc)
| SDeleteID (id : string).

(** [Error], one entry of a record's error list *)
Record Error := mkError {
  StatusCode : string;
  Message : string;
  Fields : list string
}.

(** [OpResponse], calls.go *)
Record OpResponse := mkOpResponse {
  op_ID : string;
  op_Success : bool;
  op_Errors : list Error;
  op_Created : bool;
  op_RecordIndex : Z;
  op_SObject : option SObject
}.

(** [BatchBody], composite.go *)
Record BatchBody := mkBatchBody {
  AllOrNone : bool;
  Records_ : list SObject
}.

(** What [generateRequest] puts on the wire for one [Call]: path,
    method, marshalled body and, on a query service, the batch size of
    the Sforce-Query-Options header. *)
Record Request := mkRequest {
  rq_path : string;
  rq_method : string;
  rq_body : option BatchBody;
  rq_queryOptions : option Z
}.

(** ** Entities: [SObjectName] and [WithAttr] *)

(** [RecordMap.SObjectName]: the type switch on [m["attributes"]]. *)
Definition RecordMap_SObjectName (m : option (gmap string AnyVal)) : string :=
  match m with
  | Some m =>
      match m !! "attributes" with
      | Some (VMapAny ix) =>
          match ix !! "type" with
          | Some (Some nm) => nm
          | _ => ""
          end
      | Some (VMapString ix) => default "" (ix !! "type")
      | Some (VAttributes ix) => Type_ ix
      | Some (VAttributesPtr ix) => Type_ ix
      | _ => ""
      end
  | None => ""
  end.

(** The map an entity of kind [RecordMap] denotes: [None] for a nil map. *)
Definition deref (h : Heap) (m : option loc) : option (gmap string AnyVal) :=
  match m with
  | Some l => Some (default ∅ (h !! l))
  | None => None
  end.

Definition SObjectName (h : Heap) (o : SObject) : string :=
  match o with
  | SStruct s => sr_apiName s
  | SRecordMap m => RecordMap_SObjectName (deref h m)
  | SDeleteID _ => "DeleteID"
  end.

(** [WithAttr]: the struct method works on its receiver copy and returns
    it; [RecordMap.WithAttr] assigns into the map it was called on and
    returns that same map; [DeleteID.WithAttr] returns the id. *)
Definition WithAttr (ref : string) (o : SObject) (h : Heap) : SObject * Heap :=
  match o with
  | SStruct s =>
      (SStruct {| sr_apiName := sr_apiName s;
                  sr_Attributes := Some (mkAttributes (sr_apiName s) "" ref);
                  sr_fields := sr_fields s |}, h)
  | SRecordMap (Some l) =>
      let m := default ∅ (h !! l) in
      let a := mkAttributes (RecordMap_SObjectName (Some m)) "" ref in
      (SRecordMap (Some l), <[l := <["attributes" := VAttributesPtr a]> m]> h)
  | SRecordMap None => (SRecordMap None, h)
  | SDeleteID id => (SDeleteID id, h)
  end.

(** ** [OpResponses.Errors] *)

Definition int_wrap (z : Z) : Z := ((z + 2 ^ 63) mod 2 ^ 64 - 2 ^ 63)%Z.

Definition set_source (o : OpResponse) (idx : Z) (so : SObject) : OpResponse :=
  {| op_ID := op_ID o; op_Success := op_Success o;
     op_Errors := op_Errors o; op_Created := op_Created o;
     op_RecordIndex := idx; op_SObject := Some so |}.

(** One pass of the [for i := range oprs] body.  [oprs] is the backing
    array of the receiver, written in place; [errReponses] is the slice
    being built by [append], which copies the element. *)
Definition Errors_body (startIndex : Z) (sobjects : list SObject)
    (acc : list OpResponse * list OpResponse) (i : nat)
    : list OpResponse * list OpResponse :=
  let '(oprs, errReponses) := acc in
  match oprs !! i with
  | Some o =>
      if negb (op_Success o) then
        let oprs' :=
          match sobjects !! i with
          | Some so =>
              <[i := set_source o (int_wrap (Z.of_nat i + startIndex)) so]> oprs
          | None => oprs
          end in
        match oprs' !! i with
        | Some o' => (oprs', errReponses ++ [o'])
        | None => (oprs', errReponses)
        end
      else (oprs, errReponses)
  | None => (oprs, errReponses)
  end.

(** [Errors] returns the receiver's backing array as the call leaves it
    and the returned slice. *)
Definition Errors (oprs : list OpResponse) (startIndex : Z) (sobjects : list SObject)
    : list OpResponse * list OpResponse :=
  fold_left (Errors_body startIndex sobjects) (seq 0 (length oprs)) (oprs, []).

(** [strings.Join] *)
Fixpoint Join (elems : list string) (sep : string) : string :=
  match elems with
  | [] => ""
  | [e] => e
  | e :: rest => e +:+ sep +:+ Join rest sep
  end.

(** The Go slice expression [l[i:j]] for [i <= j <= len(l)]. *)
Definition slice {A} (l : list A) (i j : nat) : list A := take (j - i) (drop i l).

(** ** The service and the world it talks to *)

Section Engine.

(** [W] is everything outside the library: the remote service, the
    network, the state captured by the caller's logging closure. *)
Context {W : Type}.

(** [BatchLogFunc]: offset, the batch's entities, the batch's
    outcomes.  The context argument has no behaviour of its own and is
    part of [W].  The hook may change [W] at will; it is taken not to
    write to the caller's maps, so that what happens to them is the
    doing of the library alone.  The slices it is handed are not used
    by the library afterwards ([append] has copied the outcomes). *)
Definition BatchLogFunc : Type :=
  W -> nat -> list SObject -> list OpResponse -> W * option goerror.

(** [Service], the fields the engine and the query loop read. *)
Record Service := mkService {
  isqry : bool;
  batchSize : Z;
  maxrows : Z;
  logger : option BatchLogFunc
}.

Definition New : Service :=
  {| isqry := false; batchSize := 0; maxrows := 0; logger := None |}.

Definition WithBatchSize (sv : Service) (batchSz : Z) : Service :=
  let batchSz := if (batchSz <? 0)%Z then 0%Z else batchSz in
  {| isqry := isqry sv; batchSize := batchSz; maxrows := maxrows sv;
     logger := logger sv |}.

Definition WithMaxrows (sv : Service) (maxrows_ : Z) : Service :=
  let maxrows_ := if (maxrows_ <? 0)%Z then 0%Z else maxrows_ in
  {| isqry := isqry sv; batchSize := batchSize sv; maxrows := maxrows_;
     logger := logger sv |}.

Definition WithLogger (sv : Service) (blf : option BatchLogFunc) : Service :=
  {| isqry := isqry sv; batchSize := batchSize sv; maxrows := maxrows sv;
     logger := blf |}.

(** [MaxBatchSize], calls.go *)
Definition MaxBatchSize (sv : Service) : Z :=
  let '(defaultMax, defaultMin) :=
    if negb (isqry sv) then (200, 1)%Z else (2000, 200)%Z in
  if (batchSize sv =? 0)%Z || (defaultMax <? batchSize sv)%Z then defaultMax
  else if (batchSize sv <? defaultMin)%Z then defaultMin
  else batchSize sv.

(** [generateRequest]: the query header is set on a query service. *)
Definition generateRequest (sv : Service) (method path : string)
    (body : option BatchBody) : Request :=
  {| rq_path := path; rq_method := method; rq_body := body;
     rq_queryOptions := if isqry sv then Some (MaxBatchSize sv) else None |}.

(** [Service.Call] with a [*[]OpResponse] result: one round trip.  It
    reads the heap to marshal the body and either fails or yields the
    decoded outcome list. *)
Variable Call_OpResponses :
  W -> Heap -> Request -> W * (goerror + list OpResponse).

(** One invocation of the logging hook, as recorded in the trace. *)
Record LogEvent := mkLogEvent {
  lg_offset : nat;
  lg_recs : list SObject;
  lg_res : list OpResponse;
  lg_err : option goerror
}.

Definition CallEvent : Type := Request * (goerror + list OpResponse).

(** The state one collection call threads through: the world, the
    heap, and the trace of Transport calls and hook calls made. *)
Record State := mkState {
  st_world : W;
  st_heap : Heap;
  st_calls : list CallEvent;
  st_logs : list LogEvent
}.

Definition init (w : W) (h : Heap) : State :=
  {| st_world := w; st_heap := h; st_calls := []; st_logs := [] |}.

Definition set_heap (h : Heap) (st : State) : State :=
  {| st_world := st_world st; st_heap := h; st_calls := st_calls st;
     st_logs := st_logs st |}.

Definition do_Call (sv : Service) (path method : string) (body : option BatchBody)
    (st : State) : (goerror + list OpResponse) * State :=
  let rq := generateRequest sv method path body in
  let '(w, r) := Call_OpResponses (st_world st) (st_heap st) rq in
  (r, {| st_world := w; st_heap := st_heap st;
         st_calls := st_calls st ++ [(rq, r)]; st_logs := st_logs st |}).

Definition do_log (lg : BatchLogFunc) (i : nat) (recs : list SObject)
    (res : list OpResponse) (st : State) : option goerror * State :=
  let '(w, e) := lg (st_world st) i recs res in
  (e, {| st_world := w; st_heap := st_heap st; st_calls := st_calls st;
         st_logs := st_logs st ++ [mkLogEvent i recs res e] |}).

(** What a collection call hands back: the aggregate ([None] is a nil
    slice) and the error. *)
Definition Returned : Type := option (list OpResponse) * option goerror.

(** ** [CompositeCall] *)

(** [for _, r := range recs[i:numRecs] { cmdRecs = append(cmdRecs, r.WithAttr("")) }] *)
Fixpoint WithAttr_range (rs : list SObject) (h : Heap) : list SObject * Heap :=
  match rs with
  | [] => ([], h)
  | r :: rs =>
      let '(c, h) := WithAttr "" r h in
      let '(cmdRecs, h) := WithAttr_range rs h in
      (c :: cmdRecs, h)
  end.

(** The [for i := 0; i < len(recs); i += batchSz] loop from index [i]
    on.  [fuel] bounds the iterations; [None] means it ran out. *)
Fixpoint CompositeCall_loop (fuel : nat) (sv : Service) (allOrNone : bool)
    (path method : string) (recs : list SObject) (batchSz i : nat)
    (opResp : list OpResponse) (st : State) : option (Returned * State) :=
  if decide (i < length recs) then
    match fuel with
    | O => None
    | S fuel =>
        let numRecs := i + batchSz in
        let numRecs := if decide (length recs < numRecs) then length recs else numRecs in
        let '(cmdRecs, h) := WithAttr_range (slice recs i numRecs) (st_heap st) in
        let st := set_heap h st in
        let body := {| AllOrNone := allOrNone; Records_ := cmdRecs |} in
        let '(r, st) := do_Call sv path method (Some body) st in
        match r with
        | inl err => Some ((Some opResp, Some err), st)
        | inr res =>
            let opResp := opResp ++ res in
            match logger sv with
            | Some lg =>
                let '(e, st) := do_log lg i cmdRecs res st in
                match e with
                | Some err => Some ((Some opResp, Some err), st)
                | None =>
                    CompositeCall_loop fuel sv allOrNone path method recs
                      batchSz (i + batchSz) opResp st
                end
            | None =>
                CompositeCall_loop fuel sv allOrNone path method recs
                  batchSz (i + batchSz) opResp st
            end
        end
    end
  else Some ((Some opResp, None), st).

Definition CompositeCall (sv : Service) (allOrNone : bool) (path method : string)
    (recs : list SObject) (st : State) : option (Returned * State) :=
  if decide (length recs = 0) then Some ((None, Some ErrZeroRecords), st)
  else
    let batchSz := Z.to_nat (MaxBatchSize sv) in
    CompositeCall_loop (length recs) sv allOrNone path method recs batchSz 0 [] st.

Definition CreateRecords (sv : Service) (allOrNone : bool) (recs : list SObject)
    (st : State) : option (Returned * State) :=
  CompositeCall sv allOrNone "composite/sobjects" "POST" recs st.

Definition UpdateRecords (sv : Service) (allOrNone : bool) (recs : list SObject)
    (st : State) : option (Returned * State) :=
  CompositeCall sv allOrNone "composite/sobjects" "PATCH" recs st.

Definition UpsertRecords (sv : Service) (allOrNone : bool) (externalIDField : string)
    (recs : list SObject) (st : State) : option (Returned * State) :=
  match recs with
  | [] => Some ((None, Some ErrZeroRecords), st)
  | r0 :: _ =>
      let sobjNm := SObjectName (st_heap st) r0 in
      CompositeCall sv allOrNone
        ("composite/sobjects/" +:+ sobjNm +:+ "/" +:+ externalIDField) "PATCH" recs st
  end.

(** ** [DeleteRecords] *)

Fixpoint DeleteRecords_loop (fuel : nat) (sv : Service) (ids : list string)
    (batchSz i : nat) (opResp : list OpResponse) (st : State)
    : option (Returned * State) :=
  if decide (i < length ids) then
    match fuel with
    | O => None
    | S fuel =>
        let numRecs := i + batchSz in
        let numRecs := if decide (length ids < numRecs) then length ids else numRecs in
        let delIDs := slice ids i numRecs in
        let path := "composite/sobjects?ids=" +:+ Join delIDs "," in
        let '(r, st) := do_Call sv path "DELETE" None st in
        match r with
        | inl err => Some ((Some opResp, Some err), st)
        | inr res =>
            let opResp := opResp ++ res in
            let delrecids := map SDeleteID delIDs in
            match logger sv with
            | Some lg =>
                let '(e, st) := do_log lg i delrecids res st in
                match e with
                | Some err => Some ((None, Some err), st)
                | None =>
                    DeleteRecords_loop fuel sv ids batchSz (i + batchSz) opResp st
                end
            | None =>
                DeleteRecords_loop fuel sv ids batchSz (i + batchSz) opResp st
            end
        end
    end
  else Some ((Some opResp, None), st).

Definition DeleteRecords (sv : Service) (allOrNone : bool) (ids : list string)
    (st : State) : option (Returned * State) :=
  if decide (length ids <= 0) then Some ((None, Some ErrZeroRecords), st)
  else
    let batchSz := Z.to_nat (MaxBatchSize sv) in
    DeleteRecords_loop (length ids) sv ids batchSz 0 [] st.

(** The four collection-write operations. *)
Inductive Op :=
| OpCreate (recs : list SObject)
| OpUpdate (recs : list SObject)
| OpUpsert (externalIDField : string) (recs : list SObject)
| OpDelete (ids : list string).

Definition run (sv : Service) (allOrNone : bool) (op : Op) (st : State)
    : option (Returned * State) :=
  match op with
  | OpCreate recs => CreateRecords sv allOrNone recs st
  | OpUpdate recs => UpdateRecords sv allOrNone recs st
  | OpUpsert f recs => UpsertRecords sv allOrNone f recs st
  | OpDelete ids => DeleteRecords sv allOrNone ids st
  end.

End Engine.

Arguments Service : clear implicits.
Arguments State : clear implicits.

(** ** The query reader: [RecordSlice] and [Service.query] *)

(** A ["records"] member of a response: JSON [null] or an array, kept as
    its raw text for [RecordSlice.UnmarshalJSON]. *)
Inductive RecordsJSON :=
| JNull
| JArray (raw : string).

(** A response body that is a well-formed JSON object with members of
    the Go field types.  encoding/json leaves a field as it is when the
    member is absent or [null]; that is [None] here. *)
Record Envelope := mkEnvelope {
  env_totalSize : option Z;
  env_done : option bool;
  env_nextRecordsUrl : option string;
  env_records : option RecordsJSON
}.

Section Query.

Context {W Row : Type}.

(** [json.Unmarshal] of the text of a records array into a fresh
    slice of the caller's row type. *)
Variable json_Unmarshal : string -> goerror + list Row.

(** [url.QueryEscape] *)
Variable QueryEscape : string -> string.

(** [Service.Call] up to the point where the body is decoded: the
    round trip fails, or a response envelope arrives. *)
Variable Call_QueryResponse : W -> Request -> W * (goerror + Envelope).

(** [RecordSlice]: [resultsVal] is the caller's slice, reached through
    the pointer given to [NewRecordSlice]; [None] is the zero
    [reflect.Value] of an uninitialised [RecordSlice]. *)
Record RecordSlice := mkRecordSlice {
  resultsVal : option (list Row)
}.

(** The [results interface{}] argument of a query. *)
Inductive Results :=
| ResultsNil
| ResultsNotSlicePtr
| ResultsSlice (l : list Row).

Definition rows (rs : RecordSlice) : nat := length (default [] (resultsVal rs)).

(** [rs.slice(i, j)] *)
Definition slice_rs (rs : RecordSlice) (i j : nat) : RecordSlice :=
  {| resultsVal := (fun l => slice l i j) <$> resultsVal rs |}.

Definition NewRecordSlice (results : Results) : goerror + RecordSlice :=
  match results with
  | ResultsSlice l => inr {| resultsVal := Some l |}
  | _ => inl "expected *[]<struct>"
  end.

(** [RecordSlice.UnmarshalJSON]: decode into a temporary slice, then
    [reflect.AppendSlice] it to [resultsVal]. *)
Definition UnmarshalJSON (rs : option RecordSlice) (b : string)
    : goerror + RecordSlice :=
  match rs with
  | Some {| resultsVal := Some l |} =>
      match json_Unmarshal b with
      | inl err => inl err
      | inr tempSlice => inr {| resultsVal := Some (l ++ tempSlice) |}
      end
  | _ => inl "uninitialized QueryResult"
  end.

(** The [Records *RecordSlice] field of the response that [query]
    decodes every page into: the slice made by [NewRecordSlice], or
    nil once a page carried ["records": null]. *)
Inductive RecordsPtr :=
| PtrNil
| PtrRS.

(** [QueryResponse], salesforce.go *)
Record QueryResponse := mkQueryResponse {
  TotalSize : Z;
  Done : bool;
  NextRecordsURL : string;
  Records : RecordsPtr
}.

(** Decoding one envelope into the response [query] reuses for every
    page.  A records array goes through [UnmarshalJSON] of the slice
    the field points to; for a nil field the decoder allocates a zero
    [RecordSlice] first. *)
Definition decode (env : Envelope) (res : QueryResponse) (rs : RecordSlice)
    : goerror + QueryResponse * RecordSlice :=
  let res' ptr :=
    {| TotalSize := default (TotalSize res) (env_totalSize env);
       Done := default (Done res) (env_done env);
       NextRecordsURL := default (NextRecordsURL res) (env_nextRecordsUrl env);
       Records := ptr |} in
  match env_records env with
  | None => inr (res' (Records res), rs)
  | Some JNull => inr (res' PtrNil, rs)
  | Some (JArray raw) =>
      match Records res with
      | PtrRS =>
          match UnmarshalJSON (Some rs) raw with
          | inl err => inl err
          | inr rs => inr (res' PtrRS, rs)
          end
      | PtrNil =>
          match UnmarshalJSON (Some {| resultsVal := None |}) raw with
          | inl err => inl err
          | inr _ => inr (res' PtrRS, rs)
          end
      end
  end.

(** What a query leaves behind: the error, the caller's slice, the
    world and the requests sent. *)
Record QueryOutcome := mkQueryOutcome {
  q_err : option goerror;
  q_results : Results;
  q_world : W;
  q_calls : list Request
}.

Definition results_of (rs : RecordSlice) : Results :=
  match resultsVal rs with
  | Some l => ResultsSlice l
  | None => ResultsNil
  end.

(** The [for !res.Done] loop of [query]; [None] when [fuel] pages were
    not enough to leave it. *)
Fixpoint query_loop (fuel : nat) (sv qsv : Service W) (fmtQry : string)
    (res : QueryResponse) (rs : RecordSlice) (w : W) (calls : list Request)
    : option QueryOutcome :=
  if Done res then Some (mkQueryOutcome None (results_of rs) w calls)
  else
    match fuel with
    | O => None
    | S fuel =>
        let rq := generateRequest qsv "GET" fmtQry None in
        let '(w, r) := Call_QueryResponse w rq in
        let calls := calls ++ [rq] in
        match r with
        | inl err => Some (mkQueryOutcome (Some err) (results_of rs) w calls)
        | inr env =>
            match decode env res rs with
            | inl err => Some (mkQueryOutcome (Some err) (results_of rs) w calls)
            | inr (res, rs) =>
                if (0 <? maxrows sv)%Z && (maxrows sv <=? Z.of_nat (rows rs))%Z then
                  let rs := slice_rs rs 0 (Z.to_nat (maxrows sv)) in
                  Some (mkQueryOutcome None (results_of rs) w calls)
                else
                  query_loop fuel sv qsv (NextRecordsURL res) res rs w calls
            end
        end
    end.

Definition query (fuel : nat) (sv : Service W) (path qry : string)
    (results : Results) (w : W) : option QueryOutcome :=
  match results with
  | ResultsNil =>
      Some (mkQueryOutcome (Some "results parameter may not be nil") results w [])
  | _ =>
      match NewRecordSlice results with
      | inl err => Some (mkQueryOutcome (Some err) results w [])
      | inr rs =>
          let res := {| TotalSize := 0; Done := false; NextRecordsURL := "";
                        Records := PtrRS |} in
          let fmtQry := path +:+ QueryEscape qry in
          let qsv := {| isqry := true; batchSize := batchSize sv;
                        maxrows := maxrows sv; logger := logger sv |} in
          query_loop fuel sv qsv fmtQry res rs w []
      end
  end.

Definition Query (fuel : nat) (sv : Service W) (qry : string) (results : Results)
    (w : W) : option QueryOutcome :=
  query fuel sv "query/?q=" qry results w.

Definition QueryAll (fuel : nat) (sv : Service W) (qry : string) (results : Results)
    (w : W) : option QueryOutcome :=
  query fuel sv "queryAll/?q=" qry results w.

End Query.

Arguments RecordSlice : clear implicits.
Arguments Results : clear implicits.
Arguments QueryOutcome : clear implicits.

(** What [Errors] leaves at index [i] of the receiver: an unsuccessful
    outcome with a source entity at the same index gets the record
    index and the entity; every other outcome stays as it is. *)
Definition annotate (startIndex : Z) (sobjects : list SObject) (i : nat)
    (o : OpResponse) : OpResponse :=
  if op_Success o then o
  else match sobjects !! i with
       | Some so => set_source o (int_wrap (Z.of_nat i + startIndex)) so
       | None => o
       end.

(** ** Traces of a collection call *)

(** The value [WithAttr] returns, which does not depend on the heap. *)
Definition WithAttr_value (ref : string) (o : SObject) : SObject :=
  match o with
  | SStruct s =>
      SStruct {| sr_apiName := sr_apiName s;
                 sr_Attributes := Some (mkAttributes (sr_apiName s) "" ref);
                 sr_fields := sr_fields s |}
  | _ => o
  end.

(** The outcomes carried by the successful calls of a trace, in order. *)
Definition outcomes (cs : list CallEvent) : list OpResponse :=
  flat_map (fun ev => match snd ev with inr res => res | inl _ => [] end) cs.

Definition ceil_div (n b : nat) : nat := (n + b - 1) / b.

(** Following the specification's batch splitter (section 4.1):
    [split(items, maxSize)] is the sequence of [(offset, subslice)] of
    the [ceil(N/maxSize)] contiguous batches, in order. *)
Definition split_spec {A} (maxSize : nat) (items : list A) : list (nat * list A) :=
  map (fun k => (k * maxSize, take maxSize (drop (k * maxSize) items)))
      (seq 0 (ceil_div (length items) maxSize)).

(** What the specification asks of a split (sections 3, 4.1 and 8):
    [ceil(N/maxSize)] batches; each a non-empty contiguous sub-slice of
    at most [maxSize] items that begins at its offset; sizes summing to
    [N]; concatenation equal to the list. *)
Definition split_ok {A} (maxSize : nat) (items : list A) : Prop :=
  let sp := split_spec maxSize items in
  length sp = ceil_div (length items) maxSize
  /\ Forall (fun b => 1 <= length (snd b) <= maxSize
                     /\ snd b = slice items (fst b) (fst b + length (snd b))
                     /\ head (snd b) = items !! fst b) sp
  /\ sum_list (map (fun b => length (snd b)) sp) = length items
  /\ concat (map snd sp) = items.

Section Trace.

Context {A : Type}.

(** The parts in which the two loops of composite.go differ: the item
    type, the request built for a sub-slice, the entities shown to the
    hook, and what is returned when the hook fails. *)
Variable items : list A.
Variable batchSz : nat.
Variable request_of : list A -> Request.
Variable view_of : list A -> list SObject.
Variable hooked : bool.
Variable on_hook_error : list OpResponse -> option (list OpResponse).

Definition chunk (i : nat) : list A := take batchSz (drop i items).

(** [Run i opResp cs ls ret]: entered at index [i] with aggregate
    [opResp], the loop makes the Transport calls [cs] and the hook
    calls [ls] and returns [ret]. *)
Inductive Run : nat -> list OpResponse -> list CallEvent -> list LogEvent
                -> Returned -> Prop :=
| Run_done i opResp :
    length items <= i ->
    Run i opResp [] [] (Some opResp, None)
| Run_call_error i opResp err :
    i < length items ->
    Run i opResp [(request_of (chunk i), inl err)] [] (Some opResp, Some err)
| Run_hook_error i opResp res err :
    i < length items -> hooked = true ->
    Run i opResp [(request_of (chunk i), inr res)]
        [mkLogEvent i (view_of (chunk i)) res (Some err)]
        (on_hook_error (opResp ++ res), Some err)
| Run_next_hooked i opResp res cs ls ret :
    i < length items -> hooked = true ->
    Run (i + batchSz) (opResp ++ res) cs ls ret ->
    Run i opResp ((request_of (chunk i), inr res) :: cs)
        (mkLogEvent i (view_of (chunk i)) res None :: ls) ret
| Run_next i opResp res cs ls ret :
    i < length items -> hooked = false ->
    Run (i + batchSz) (opResp ++ res) cs ls ret ->
    Run i opResp ((request_of (chunk i), inr res) :: cs) ls ret.

(** The issued batches against the specification's splitter: the
    requests and the hook calls are, in order, those of a prefix of the
    split, and of all of it when the call returns no error. *)
Definition issued_as_split (cs : list CallEvent) (ls : list LogEvent)
    (ret : Returned) : Prop :=
  let sp := split_spec batchSz items in
  map fst cs = map (fun b => request_of (snd b)) (take (length cs) sp) /\
  (if hooked
   then map (fun ev => (lg_offset ev, lg_recs ev)) ls
        = map (fun b => (fst b, view_of (snd b))) (take (length ls) sp)
   else ls = []) /\
  (snd ret = None -> length cs = length sp).

End Trace.

(** The instances of the trace parameters for the two loops. *)
Definition composite_request {W} (sv : Service W) (allOrNone : bool)
    (path method : string) (sub : list SObject) : Request :=
  generateRequest sv method path
    (Some {| AllOrNone := allOrNone; Records_ := map (WithAttr_value "") sub |}).

Definition delete_request {W} (sv : Service W) (delIDs : list string) : Request :=
  generateRequest sv "DELETE" ("composite/sobjects?ids=" +:+ Join delIDs ",") None.

Definition hooked_of {W} (sv : Service W) : bool :=
  match logger sv with Some _ => true | None => false end.

(** The entity view of an operation's input: delete wraps each id. *)
Definition op_entities (op : Op) : list SObject :=
  match op with
  | OpCreate recs | OpUpdate recs | OpUpsert _ recs => recs
  | OpDelete ids => map SDeleteID ids
  end.

(** The path a composite operation posts to. *)
Definition op_path (h : Heap) (op : Op) : string :=
  match op with
  | OpCreate _ | OpUpdate _ => "composite/sobjects"
  | OpUpsert f recs =>
      "composite/sobjects/" +:+ SObjectName h (default (SDeleteID "") (head recs))
        +:+ "/" +:+ f
  | OpDelete _ => ""
  end.

Definition op_method (op : Op) : string :=
  match op with
  | OpCreate _ => "POST"
  | OpUpdate _ | OpUpsert _ _ => "PATCH"
  | OpDelete _ => "DELETE"
  end.

(** The run of an operation on a non-empty input, by operation. *)
Definition OpRun {W} (sv : Service W) (allOrNone : bool) (h : Heap) (op : Op)
    (cs : list CallEvent) (ls : list LogEvent) (ret : Returned) : Prop :=
  let B := Z.to_nat (MaxBatchSize sv) in
  match op with
  | OpDelete ids =>
      Run ids B (delete_request sv) (map SDeleteID) (hooked_of sv)
          (fun _ => None) 0 [] cs ls ret
  | _ =>
      Run (op_entities op) B
          (composite_request sv allOrNone (op_path h op) (op_method op))
          (map (WithAttr_value "")) (hooked_of sv) Some 0 [] cs ls ret
  end.

(** The batches of an operation against the specification: the split of
    its input is as specified and the calls made follow it. *)
Definition op_batches {W} (sv : Service W) (allOrNone : bool) (h : Heap) (op : Op)
    (cs : list CallEvent) (ls : list LogEvent) (ret : Returned) : Prop :=
  let B := Z.to_nat (MaxBatchSize sv) in
  match op with
  | OpDelete ids =>
      split_ok B ids
      /\ issued_as_split ids B (delete_request sv) (map SDeleteID) (hooked_of sv)
            cs ls ret
  | _ =>
      split_ok B (op_entities op)
      /\ issued_as_split (op_entities op) B
            (composite_request sv allOrNone (op_path h op) (op_method op))
            (map (WithAttr_value "")) (hooked_of sv) cs ls ret
  end.

(** What a collection call may do to the heap, given the entities it was
    handed: a map that is not one of them stays as it is, and in every
    map only the entry under ["attributes"] may change. *)
Definition tagged_in_place (recs : list SObject) (h h' : Heap) : Prop :=
  forall l : loc,
    (SRecordMap (Some l) ∉ recs -> h' !! l = h !! l)
    /\ (forall key : string, key <> "attributes" ->
          default ∅ (h' !! l) !! key = default ∅ (h !! l) !! key).

(** ** Sample data *)

Definition ex_succeeded : OpResponse :=
  {| op_ID := "0033000002239QCA"; op_Success := true; op_Errors := [];
     op_Created := true; op_RecordIndex := 0; op_SObject := None |}.

Definition ex_failed : OpResponse :=
  {| op_ID := ""; op_Success := false;
     op_Errors := [mkError "100" "duplicate value" ["External_PID__c"]];
     op_Created := false; op_RecordIndex := 0; op_SObject := None |}.

(** A scripted world: the replies the Transport will give and the
    verdicts the logging hook will give, consumed in order. *)
Record Script := mkScript {
  sc_replies : list (goerror + list OpResponse);
  sc_verdicts : list (option goerror)
}.

Definition scripted_Call (w : Script) (_ : Heap) (_ : Request)
    : Script * (goerror + list OpResponse) :=
  match sc_replies w with
  | r :: rs => (mkScript rs (sc_verdicts w), r)
  | [] => (w, inl "connection refused")
  end.

Definition scripted_logger : BatchLogFunc (W := Script) :=
  fun w _ _ _ =>
    match sc_verdicts w with
    | v :: vs => (mkScript (sc_replies w) vs, v)
    | [] => (w, None)
    end.

Definition ex_contact (pid : string) : SObject :=
  SStruct {| sr_apiName := "Contact"; sr_Attributes := None;
             sr_fields := [("PID__c", pid)] |}.

(** A service with batch size 2, with and without the scripted hook. *)
Definition ex_sv : Service Script := WithBatchSize New 2.
Definition ex_sv_logged : Service Script := WithLogger ex_sv (Some scripted_logger).

(** A caller's heap with one [RecordMap] holding a name, and the entity
    that refers to it. *)
Definition ex_heap : Heap := {[ 1%positive := {[ "Name" := VString "Acme" ]} ]}.
Definition ex_recordmap : SObject := SRecordMap (Some 1%positive).

Definition ex_three : list SObject :=
  [ex_contact "P00067f"; ex_contact "P000680"; ex_contact "P0006ee"].

(** A query server in the manner of the test server: three pages, the
    next page named by the path, [done] sent on the last page only.  The
    world counts the requests served. *)
Definition ex_page1 : Envelope :=
  mkEnvelope (Some 460%Z) None (Some "/query/nextset/2") (Some (JArray "page1")).
Definition ex_page2 : Envelope :=
  mkEnvelope (Some 460%Z) None (Some "/query/nextset/3") (Some (JArray "page2")).
Definition ex_page3 : Envelope :=
  mkEnvelope (Some 460%Z) (Some true) None (Some (JArray "page3")).

Definition ex_query_server (w : nat) (rq : Request) : nat * (goerror + Envelope) :=
  if decide (rq_path rq = "query/?q=firstset") then (S w, inr ex_page1)
  else if decide (rq_path rq = "/query/nextset/2") then (S w, inr ex_page2)
  else if decide (rq_path rq = "/query/nextset/3") then (S w, inr ex_page3)
  else (S w, inl "404 page not found").

(** Rows are numbers; the three arrays hold rows 0..199, 200..399 and
    400..459. *)
Definition ex_json_Unmarshal (raw : string) : goerror + list nat :=
  if decide (raw = "page1") then inr (seq 0 200)
  else if decide (raw = "page2") then inr (seq 200 200)
  else if decide (raw = "page3") then inr (seq 400 60)
  else inl "invalid character".

(** The sample query text has no character that needs escaping. *)
Definition ex_QueryEscape (qry : string) : string := qry.

Definition ex_qsv : Service nat :=
  {| isqry := true; batchSize := 0; maxrows := 0; logger := None |}.

(** A service with a row cap of 8, as in the query test, and the copy
    of it that [query] makes. *)
Definition ex_sv_capped : Service nat := WithMaxrows New 8.
Definition ex_qsv_capped : Service nat :=
  {| isqry := true; batchSize := 0; maxrows := 8; logger := None |}.

(** A Transport in the manner of the test server for POST: one outcome
    per record of the body, a failure for the contact with the
    duplicate id.  The world counts the requests served. *)
Definition echo_Call (w : nat) (_ : Heap) (rq : Request)
    : nat * (goerror + list OpResponse) :=
  (S w,
   match rq_body rq with
   | Some body =>
       inr (map (fun o =>
                   match o with
                   | SStruct s =>
                       if decide (sr_fields s = [("PID__c", "P0006ee")])
                       then ex_failed else ex_succeeded
                   | _ => ex_succeeded
                   end) (Records_ body))
   | None => inl "400 bad request"
   end).

(** 479 contacts, the one at position 462 with the duplicate id. *)
Definition ex_479 : list SObject :=
  replicate 462 (ex_contact "P00067f") ++ [ex_contact "P0006ee"]
    ++ replicate 16 (ex_contact "P000680").

(** ** Predicates on the heap of tagged maps *)

(** The object name of the map at a location. *)
Definition name_at (h : Heap) (l : loc) : string :=
  RecordMap_SObjectName (Some (default ∅ (h !! l))).

(** The map at [l] carries the attribute block [WithAttr("")] writes for
    a map that had the name it had in [h0]. *)
Definition tagged (h0 h : Heap) (l : loc) : Prop :=
  default ∅ (h !! l) !! "attributes"
  = Some (VAttributesPtr (mkAttributes (name_at h0 l) "" "")).

Definition names_kept (h0 h : Heap) : Prop :=
  forall l, name_at h l = name_at h0 l.

(** ** Text marshalling of [Date], [Datetime] and [Time] (salesforce.go) *)

(** The three types are strings.  A [[]byte] is a string here and [None]
    when it is nil; a pointer receiver is [None] when it is nil.  The Go
    test [d > ""] holds of every string but the empty one. *)
Definition nonempty (s : string) : bool :=
  match s with
  | EmptyString => false
  | _ => true
  end.

(** [(d *Datetime) MarshalText] *)
Definition Datetime_MarshalText (d : option string) : option string * option goerror :=
  match d with
  | Some s => if nonempty s then (Some s, None) else (None, None)
  | None => (None, None)
  end.

(** [(d Date) MarshalText] *)
Definition Date_MarshalText (d : string) : option string * option goerror :=
  if nonempty d then (Some d, None) else (None, None).

(** [(t Time) MarshalText] *)
Definition Time_MarshalText (t : string) : option string * option goerror :=
  if nonempty t then (Some t, None) else (Some "null", None).

(** [UnmarshalText] of the three types, the same code in each: the new
    value of [*d], or the error for a nil receiver. *)
Definition UnmarshalText (d : option string) (b : option string) : goerror + string :=
  match d with
  | None => inl "nil pointer"
  | Some _ => inr (default "" b)
  end.

(** ** [Address] and its map form *)

Section AddressModel.

(** [F] stands for [float64]: [fzero] is the value a failed type
    assertion yields, [F_IsZero] is [reflect.Value.IsZero] on a float. *)
Context {F : Type}.
Variable fzero : F.
Variable F_IsZero : F -> bool.

(** A value of an address map, by the two dynamic types the conversions
    tell apart. *)
Inductive AddrVal :=
| AString (s : string)
| AFloat (f : F)
| AOther.

Record Address := mkAddress {
  GeocodeAccuracy : string;
  City : string;
  CountryCode : string;
  Latitude : F;
  Longitude : F;
  PostalCode : string;
  StateCode : string;
  Street : string
}.

(** One turn of the loop of [ToMap] over the fields: the field is
    stored unless [omitempty] is set and the field is zero. *)
Definition put_field (omitempty isZero : bool) (key : string) (v : AddrVal)
    (m : gmap string AddrVal) : gmap string AddrVal :=
  if negb omitempty || negb isZero then <[key := v]> m else m.

(** [Address.ToMap]: the fields in declaration order. *)
Definition ToMap (a : Address) (nm : string) (omitempty : bool) : gmap string AddrVal :=
  let m := ∅ in
  let m := put_field omitempty (negb (nonempty (GeocodeAccuracy a)))
             (nm +:+ "GeocodeAccuracy") (AString (GeocodeAccuracy a)) m in
  let m := put_field omitempty (negb (nonempty (City a)))
             (nm +:+ "City") (AString (City a)) m in
  let m := put_field omitempty (negb (nonempty (CountryCode a)))
             (nm +:+ "CountryCode") (AString (CountryCode a)) m in
  let m := put_field omitempty (F_IsZero (Latitude a))
             (nm +:+ "Latitude") (AFloat (Latitude a)) m in
  let m := put_field omitempty (F_IsZero (Longitude a))
             (nm +:+ "Longitude") (AFloat (Longitude a)) m in
  let m := put_field omitempty (negb (nonempty (PostalCode a)))
             (nm +:+ "PostalCode") (AString (PostalCode a)) m in
  let m := put_field omitempty (negb (nonempty (StateCode a)))
             (nm +:+ "StateCode") (AString (StateCode a)) m in
  let m := put_field omitempty (negb (nonempty (Street a)))
             (nm +:+ "Street") (AString (Street a)) m in
  m.

Definition stringFromInterface (ix : option AddrVal) : string :=
  match ix with
  | Some (AString s) => s
  | _ => ""
  end.

Definition float64FromInterface (ix : option AddrVal) : F :=
  match ix with
  | Some (AFloat f) => f
  | _ => fzero
  end.

(** [ToAddress] *)
Definition ToAddress (prefix : string) (ix : gmap string AddrVal) : Address :=
  {| GeocodeAccuracy := stringFromInterface (ix !! (prefix +:+ "GeocodeAccuracy"));
     City := stringFromInterface (ix !! (prefix +:+ "City"));
     CountryCode := stringFromInterface (ix !! (prefix +:+ "CountryCode"));
     StateCode := stringFromInterface (ix !! (prefix +:+ "StateCode"));
     PostalCode := stringFromInterface (ix !! (prefix +:+ "PostalCode"));
     Street := stringFromInterface (ix !! (prefix +:+ "Street"));
     Longitude := float64FromInterface (ix !! (prefix +:+ "Longitude"));
     Latitude := float64FromInterface (ix !! (prefix +:+ "Latitude")) |}.

End AddressModel.

Arguments AddrVal : clear implicits.
Arguments Address : clear implicits.

(** * Properties *)

(** ** Batch size *)

Lemma MaxBatchSize_write {W} (sv : Service W) :
  isqry sv = false -> (1 <= MaxBatchSize sv <= 200)%Z.
Proof.
  intros Hq. unfold MaxBatchSize. rewrite Hq. simpl.
  destruct (batchSize sv =? 0)%Z eqn:E0; simpl; [lia|].
  destruct (200 <? batchSize sv)%Z eqn:E1; [lia|].
  destruct (batchSize sv <? 1)%Z eqn:E2; lia.
Qed.

Lemma MaxBatchSize_query {W} (sv : Service W) :
  isqry sv = true -> (200 <= MaxBatchSize sv <= 2000)%Z.
Proof.
  intros Hq. unfold MaxBatchSize. rewrite Hq. simpl.
  destruct (batchSize sv =? 0)%Z eqn:E0; simpl; [lia|].
  destruct (2000 <? batchSize sv)%Z eqn:E1; [lia|].
  destruct (batchSize sv <? 200)%Z eqn:E2; lia.
Qed.

Lemma MaxBatchSize_pos {W} (sv : Service W) : 0 < Z.to_nat (MaxBatchSize sv).
Proof.
  destruct (isqry sv) eqn:Hq.
  - pose proof (MaxBatchSize_query sv Hq). lia.
  - pose proof (MaxBatchSize_write sv Hq). lia.
Qed.

(** ** Slices and tagged copies *)

Lemma slice_chunk {A} (l : list A) (b i : nat) :
  slice l i (if decide (length l < i + b) then length l else i + b)
  = take b (drop i l).
Proof.
  unfold slice. case_decide as Hlt.
  - rewrite !take_ge; [done | | ]; rewrite length_drop; lia.
  - f_equal. lia.
Qed.

Lemma WithAttr_fst ref o h : fst (WithAttr ref o h) = WithAttr_value ref o.
Proof. destruct o as [s|[l|]|id]; reflexivity. Qed.

Lemma WithAttr_range_fst rs h :
  fst (WithAttr_range rs h) = map (WithAttr_value "") rs.
Proof.
  revert h. induction rs as [|r rs IH]; intros h; simpl; [done|].
  pose proof (WithAttr_fst "" r h) as Hr.
  destruct (WithAttr "" r h) as [c h1]. simpl in Hr. subst c.
  specialize (IH h1). destruct (WithAttr_range rs h1) as [cs h2].
  simpl in *. by rewrite IH.
Qed.

(** ** The loops produce runs *)

Section Adequacy.

Context {W : Type}.
Variable Call_OpResponses : W -> Heap -> Request -> W * (goerror + list OpResponse).

Lemma CompositeCall_loop_Run fuel (sv : Service W) allOrNone path method recs
    batchSz i opResp st :
  0 < batchSz -> length recs <= i + fuel ->
  exists ret st' cs ls,
    CompositeCall_loop Call_OpResponses fuel sv allOrNone path method recs
      batchSz i opResp st = Some (ret, st')
    /\ st_calls st' = st_calls st ++ cs
    /\ st_logs st' = st_logs st ++ ls
    /\ Run recs batchSz (composite_request sv allOrNone path method)
           (map (WithAttr_value "")) (hooked_of sv) Some i opResp cs ls ret.
Proof.
  intros HB. revert i opResp st.
  set (rq := composite_request sv allOrNone path method).
  set (vw := map (WithAttr_value "")).
  assert (Hhk : forall lg, logger sv = Some lg -> hooked_of sv = true)
    by (intros lg E; unfold hooked_of; by rewrite E).
  assert (Hnhk : logger sv = None -> hooked_of sv = false)
    by (intros E; unfold hooked_of; by rewrite E).
  induction fuel as [|fuel IH]; intros i opResp st Hfuel; simpl.
  - case_decide; [lia|].
    exists (Some opResp, None), st, [], []. rewrite !app_nil_r.
    repeat split. constructor. lia.
  - case_decide as Hi.
    2:{ exists (Some opResp, None), st, [], []. rewrite !app_nil_r.
        repeat split. constructor. lia. }
    rewrite slice_chunk.
    pose proof (WithAttr_range_fst (take batchSz (drop i recs)) (st_heap st)) as Hc.
    destruct (WithAttr_range _ _) as [cmdRecs h]. simpl in Hc. subst cmdRecs.
    unfold do_Call. simpl.
    destruct (Call_OpResponses _ _ _) as [w [err|res]] eqn:HCall.
    + eexists _, _, [_], []. rewrite app_nil_r. repeat split.
      by apply (Run_call_error recs batchSz rq vw).
    + destruct (logger sv) as [lg|] eqn:Hlg.
      * unfold do_log. simpl.
        destruct (lg w i _ res) as [w' [err|]] eqn:Hlog.
        -- eexists _, _, [_], [_]. repeat split.
           apply (Run_hook_error recs batchSz rq vw); eauto.
        -- edestruct (IH (i + batchSz) (opResp ++ res))
             as (ret & st' & cs & ls & -> & Hcs & Hls & HRun); [lia|].
           simpl in Hcs, Hls.
           eexists ret, st', (_ :: cs), (_ :: ls). repeat split.
           ++ rewrite Hcs. by rewrite <- app_assoc.
           ++ rewrite Hls. by rewrite <- app_assoc.
           ++ apply (Run_next_hooked recs batchSz rq vw); eauto.
      * edestruct (IH (i + batchSz) (opResp ++ res))
          as (ret & st' & cs & ls & -> & Hcs & Hls & HRun); [lia|].
        simpl in Hcs, Hls.
        eexists ret, st', (_ :: cs), ls. repeat split.
        -- rewrite Hcs. by rewrite <- app_assoc.
        -- done.
        -- apply (Run_next recs batchSz rq vw); eauto.
Qed.

Lemma DeleteRecords_loop_Run fuel (sv : Service W) ids batchSz i opResp st :
  0 < batchSz -> length ids <= i + fuel ->
  exists ret st' cs ls,
    DeleteRecords_loop Call_OpResponses fuel sv ids batchSz i opResp st
      = Some (ret, st')
    /\ st_calls st' = st_calls st ++ cs
    /\ st_logs st' = st_logs st ++ ls
    /\ st_heap st' = st_heap st
    /\ Run ids batchSz (delete_request sv) (map SDeleteID) (hooked_of sv)
           (fun _ => None) i opResp cs ls ret.
Proof.
  intros HB. revert i opResp st.
  set (rq := delete_request sv).
  set (vw := map SDeleteID).
  assert (Hhk : forall lg, logger sv = Some lg -> hooked_of sv = true)
    by (intros lg E; unfold hooked_of; by rewrite E).
  assert (Hnhk : logger sv = None -> hooked_of sv = false)
    by (intros E; unfold hooked_of; by rewrite E).
  induction fuel as [|fuel IH]; intros i opResp st Hfuel; simpl.
  - case_decide; [lia|].
    exists (Some opResp, None), st, [], []. rewrite !app_nil_r.
    repeat split. constructor. lia.
  - case_decide as Hi.
    2:{ exists (Some opResp, None), st, [], []. rewrite !app_nil_r.
        repeat split. constructor. lia. }
    rewrite slice_chunk. unfold do_Call. simpl.
    destruct (Call_OpResponses _ _ _) as [w [err|res]] eqn:HCall.
    + eexists _, _, [_], []. rewrite app_nil_r. repeat split.
      by apply (Run_call_error ids batchSz rq vw).
    + destruct (logger sv) as [lg|] eqn:Hlg.
      * unfold do_log. simpl.
        destruct (lg w i _ res) as [w' [err|]] eqn:Hlog.
        -- eexists _, _, [_], [_]. repeat split.
           apply (Run_hook_error ids batchSz rq vw _ (fun _ => None)); eauto.
        -- edestruct (IH (i + batchSz) (opResp ++ res))
             as (ret & st' & cs & ls & -> & Hcs & Hls & Hh & HRun); [lia|].
           simpl in Hcs, Hls, Hh.
           eexists ret, st', (_ :: cs), (_ :: ls). repeat split.
           ++ rewrite Hcs. by rewrite <- app_assoc.
           ++ rewrite Hls. by rewrite <- app_assoc.
           ++ done.
           ++ apply (Run_next_hooked ids batchSz rq vw); eauto.
      * edestruct (IH (i + batchSz) (opResp ++ res))
          as (ret & st' & cs & ls & -> & Hcs & Hls & Hh & HRun); [lia|].
        simpl in Hcs, Hls, Hh.
        eexists ret, st', (_ :: cs), ls. repeat split.
        -- rewrite Hcs. by rewrite <- app_assoc.
        -- done.
        -- done.
        -- apply (Run_next ids batchSz rq vw); eauto.
Qed.

Lemma CompositeCall_Run (sv : Service W) allOrNone path method recs w h :
  recs <> [] ->
  exists ret st',
    CompositeCall Call_OpResponses sv allOrNone path method recs (init w h)
      = Some (ret, st')
    /\ Run recs (Z.to_nat (MaxBatchSize sv))
           (composite_request sv allOrNone path method)
           (map (WithAttr_value "")) (hooked_of sv) Some 0 []
           (st_calls st') (st_logs st') ret.
Proof.
  intros Hne. unfold CompositeCall.
  case_decide as Hlen; [by destruct recs|].
  destruct (CompositeCall_loop_Run (length recs) sv allOrNone path method recs
              (Z.to_nat (MaxBatchSize sv)) 0 [] (init w h))
    as (ret & st' & cs & ls & Hrun & Hcs & Hls & HRun);
    [apply MaxBatchSize_pos | lia |].
  exists ret, st'. split; [done|]. simpl in Hcs, Hls. by rewrite Hcs, Hls.
Qed.

Lemma run_Run (sv : Service W) allOrNone op w h :
  op_entities op <> [] ->
  exists ret st',
    run Call_OpResponses sv allOrNone op (init w h) = Some (ret, st')
    /\ OpRun sv allOrNone h op (st_calls st') (st_logs st') ret.
Proof.
  intros Hne. destruct op as [recs|recs|f recs|ids]; simpl in *.
  - by apply CompositeCall_Run.
  - by apply CompositeCall_Run.
  - unfold UpsertRecords. destruct recs as [|r0 recs]; [done|].
    by apply CompositeCall_Run.
  - unfold DeleteRecords.
    case_decide as Hlen; [destruct ids; simpl in *; [done|lia]|].
    destruct (DeleteRecords_loop_Run (length ids) sv ids
                (Z.to_nat (MaxBatchSize sv)) 0 [] (init w h))
      as (ret & st' & cs & ls & Hrun & Hcs & Hls & _ & HRun);
      [apply MaxBatchSize_pos | lia |].
    exists ret, st'. split; [done|]. simpl in Hcs, Hls. by rewrite Hcs, Hls.
Qed.

End Adequacy.

(** ** Arithmetic of the number of batches *)

Lemma ceil_div_lt (n b k : nat) : 0 < b -> k * b < n <-> k < ceil_div n b.
Proof.
  intros Hb. unfold ceil_div. split; intros H.
  - apply Nat.lt_succ_r in H.
    assert (S k <= (n + b - 1) / b); [|lia].
    apply Nat.div_le_lower_bound; lia.
  - destruct (decide (k * b < n)) as [|Hge]; [done|].
    assert ((n + b - 1) / b < S k); [|lia].
    apply Nat.Div0.div_lt_upper_bound; lia.
Qed.

Lemma ceil_div_unique (n b m : nat) :
  0 < b -> (forall k, k < m -> k * b < n) -> n <= m * b -> m = ceil_div n b.
Proof.
  intros Hb Hlt Hle.
  assert (~ m < ceil_div n b) by (rewrite <- ceil_div_lt by done; lia).
  destruct m as [|m]; [lia|].
  assert (m < ceil_div n b) by (apply ceil_div_lt; [done|]; apply Hlt; lia).
  lia.
Qed.

(** ** Facts about runs *)

Section RunFacts.

Context {A : Type}.
Variable items : list A.
Variable batchSz : nat.
Variable request_of : list A -> Request.
Variable view_of : list A -> list SObject.
Variable hooked : bool.
Variable on_hook_error : list OpResponse -> option (list OpResponse).

Local Abbreviation Run := (Run items batchSz request_of view_of hooked on_hook_error).
Local Abbreviation chunk := (chunk items batchSz).

Lemma Run_unhooked i opResp cs ls ret :
  Run i opResp cs ls ret -> hooked = false -> ls = [].
Proof. induction 1; intros Hh; auto; congruence. Qed.

(** The [k]-th call of a run carries the sub-slice at [i + k * batchSz]. *)
Lemma Run_requests i opResp cs ls ret :
  Run i opResp cs ls ret ->
  forall k ev, cs !! k = Some ev ->
    i + k * batchSz < length items /\ fst ev = request_of (chunk (i + k * batchSz)).
Proof.
  induction 1 as [i o Hi|i o err Hi|i o res err Hi Hh|i o res cs ls ret Hi Hh HR IH
                 |i o res cs ls ret Hi Hh HR IH]; intros k ev Hk.
  - done.
  - destruct k; simplify_eq/=. rewrite Nat.add_0_r. done.
  - destruct k; simplify_eq/=. rewrite Nat.add_0_r. done.
  - destruct k as [|k]; simplify_eq/=.
    + rewrite Nat.add_0_r. done.
    + destruct (IH k ev Hk) as [H1 H2].
      replace (i + (batchSz + k * batchSz)) with (i + batchSz + k * batchSz) by lia.
      done.
  - destruct k as [|k]; simplify_eq/=.
    + rewrite Nat.add_0_r. done.
    + destruct (IH k ev Hk) as [H1 H2].
      replace (i + (batchSz + k * batchSz)) with (i + batchSz + k * batchSz) by lia.
      done.
Qed.

(** The [k]-th hook call follows the [k]-th Transport call, which
    succeeded, and is given its offset, entities and outcomes. *)
Lemma Run_logs i opResp cs ls ret :
  Run i opResp cs ls ret ->
  forall k ev, ls !! k = Some ev ->
    lg_offset ev = i + k * batchSz
    /\ lg_recs ev = view_of (chunk (i + k * batchSz))
    /\ cs !! k = Some (request_of (chunk (i + k * batchSz)), inr (lg_res ev)).
Proof.
  induction 1 as [i o Hi|i o err Hi|i o res err Hi Hh|i o res cs ls ret Hi Hh HR IH
                 |i o res cs ls ret Hi Hh HR IH]; intros k ev Hk.
  - done.
  - done.
  - destruct k; simplify_eq/=. rewrite Nat.add_0_r. done.
  - destruct k as [|k]; simplify_eq/=.
    + rewrite Nat.add_0_r. done.
    + destruct (IH k ev Hk) as (H1 & H2 & H3).
      replace (i + (batchSz + k * batchSz)) with (i + batchSz + k * batchSz) by lia.
      done.
  - apply Run_unhooked in HR; [|done]. by subst ls.
Qed.

(** A failed Transport call is the last one; the aggregate holds the
    outcomes of the calls before it. *)
Lemma Run_call_failed i opResp cs ls ret :
  Run i opResp cs ls ret ->
  forall k rq e, cs !! k = Some (rq, inl e) ->
    length cs = S k
    /\ ret = (Some (opResp ++ outcomes (take k cs)), Some e)
    /\ Forall (fun ev => lg_err ev = None) ls.
Proof.
  induction 1 as [i o Hi|i o err Hi|i o res err Hi Hh|i o res cs ls ret Hi Hh HR IH
                 |i o res cs ls ret Hi Hh HR IH]; intros k rq e Hk.
  - done.
  - destruct k; simplify_eq/=. by rewrite app_nil_r.
  - destruct k; simplify_eq/=.
  - destruct k as [|k]; simplify_eq/=.
    destruct (IH k rq e Hk) as (H1 & H2 & H3).
    rewrite H1, H2. unfold outcomes at 2. simpl.
    rewrite <- app_assoc. repeat split. by constructor.
  - destruct k as [|k]; simplify_eq/=.
    destruct (IH k rq e Hk) as (H1 & H2 & H3).
    rewrite H1, H2. unfold outcomes at 2. simpl.
    rewrite <- app_assoc. done.
Qed.

(** A failed hook call is the last one and follows the last Transport
    call. *)
Lemma Run_hook_failed i opResp cs ls ret :
  Run i opResp cs ls ret ->
  forall k ev e, ls !! k = Some ev -> lg_err ev = Some e ->
    length cs = S k /\ length ls = S k
    /\ ret = (on_hook_error (opResp ++ outcomes cs), Some e).
Proof.
  induction 1 as [i o Hi|i o err Hi|i o res err Hi Hh|i o res cs ls ret Hi Hh HR IH
                 |i o res cs ls ret Hi Hh HR IH]; intros k ev e Hk He.
  - done.
  - done.
  - destruct k; simplify_eq/=. unfold outcomes. simpl. by rewrite app_nil_r.
  - destruct k as [|k]; simplify_eq/=.
    destruct (IH k ev e Hk He) as (H1 & H2 & H3).
    rewrite H1, H2, H3. unfold outcomes at 2. simpl.
    by rewrite <- app_assoc.
  - apply Run_unhooked in HR; [|done]. by subst ls.
Qed.

(** A run that returns no error made every call to the end of the
    list, all of them and all hook calls succeeded, and the aggregate
    is the concatenation of the outcomes. *)
Lemma Run_completed i opResp cs ls ret :
  Run i opResp cs ls ret -> snd ret = None ->
  ret = (Some (opResp ++ outcomes cs), None)
  /\ length items <= i + length cs * batchSz
  /\ (forall k ev, cs !! k = Some ev -> exists res, snd ev = inr res)
  /\ Forall (fun ev => lg_err ev = None) ls
  /\ (hooked = true -> length ls = length cs).
Proof.
  induction 1 as [i o Hi|i o err Hi|i o res err Hi Hh|i o res cs ls ret Hi Hh HR IH
                 |i o res cs ls ret Hi Hh HR IH]; intros Hret; simpl in *.
  - rewrite app_nil_r. repeat split; [lia|done|done].
  - done.
  - done.
  - destruct (IH Hret) as (H1 & H2 & H3 & H4 & H5).
    rewrite H1. unfold outcomes at 2. simpl. rewrite <- app_assoc.
    repeat split; [lia| |by constructor|intros; f_equal; auto].
    intros [|k] ev Hk; simplify_eq/=; eauto.
  - destruct (IH Hret) as (H1 & H2 & H3 & H4 & H5).
    rewrite H1. unfold outcomes at 2. simpl. rewrite <- app_assoc.
    repeat split; [lia| |done|congruence].
    intros [|k] ev Hk; simplify_eq/=; eauto.
Qed.

(** An error returned by a run is the error of its last Transport
    call or of its last hook call. *)
Lemma Run_error_source i opResp cs ls ret :
  Run i opResp cs ls ret ->
  forall e, snd ret = Some e ->
    (exists rq, last cs = Some (rq, inl e))
    \/ (exists ev, last ls = Some ev /\ lg_err ev = Some e).
Proof.
  induction 1 as [i o Hi|i o err Hi|i o res err Hi Hh|i o res cs ls ret Hi Hh HR IH
                 |i o res cs ls ret Hi Hh HR IH]; intros e He; simpl in *.
  - done.
  - simplify_eq. left. eauto.
  - simplify_eq. right. eauto.
  - destruct (IH e He) as [[rq Hl]|[ev [Hl Hev]]].
    + left. exists rq. rewrite last_cons, Hl. done.
    + right. exists ev. rewrite last_cons, Hl. done.
  - destruct (IH e He) as [[rq Hl]|[ev [Hl Hev]]].
    + left. exists rq. rewrite last_cons, Hl. done.
    + right. exists ev. split; done.
Qed.

Lemma Run_count cs ls ret :
  0 < batchSz -> Run 0 [] cs ls ret -> snd ret = None ->
  length cs = ceil_div (length items) batchSz.
Proof.
  intros HB HR Hret. apply ceil_div_unique; [done| |].
  - intros k Hk. destruct (lookup_lt_is_Some_2 cs k Hk) as [ev Hev].
    destruct (Run_requests _ _ _ _ _ HR k ev Hev) as [H _]. lia.
  - destruct (Run_completed _ _ _ _ _ HR Hret) as (_ & H & _). lia.
Qed.

End RunFacts.

(** ** [Errors]: what the pass leaves in the receiver and returns *)

Lemma annotate_Success startIndex sobjects i o :
  op_Success (annotate startIndex sobjects i o) = op_Success o.
Proof.
  unfold annotate. destruct (op_Success o) eqn:E; [done|].
  by destruct (sobjects !! i).
Qed.

Lemma insert_middle {A} (l1 l2 : list A) (x y : A) (n : nat) :
  n = length l1 -> <[n := y]> (l1 ++ x :: l2) = l1 ++ y :: l2.
Proof. intros ->. induction l1 as [|a l1 IH]; simpl; [done|]. by rewrite IH. Qed.

Lemma Errors_prefix startIndex sobjects (oprs : list OpResponse) n :
  n <= length oprs ->
  fold_left (Errors_body startIndex sobjects) (seq 0 n) (oprs, [])
  = (imap (annotate startIndex sobjects) (take n oprs) ++ drop n oprs,
     filter (fun o => op_Success o = false)
            (imap (annotate startIndex sobjects) (take n oprs))).
Proof.
  induction n as [|n IH]; intros Hn.
  - simpl. by rewrite drop_0.
  - rewrite seq_S, fold_left_app, IH by lia. simpl.
    destruct (lookup_lt_is_Some_2 oprs n ltac:(lia)) as [o Ho].
    set (pre := imap (annotate startIndex sobjects) (take n oprs)).
    assert (Hpre : length pre = n)
      by (unfold pre; rewrite length_imap, length_take; lia).
    assert (Hlook : (pre ++ drop n oprs) !! n = Some o).
    { rewrite lookup_app_r by lia. rewrite Hpre, Nat.sub_diag.
      rewrite lookup_drop, Nat.add_0_r. done. }
    rewrite Hlook.
    rewrite (take_S_r oprs n o Ho), imap_app. fold pre.
    rewrite length_take_le by lia. simpl. rewrite Nat.add_0_r.
    rewrite (drop_S oprs o n Ho) in *.
    unfold annotate. destruct (op_Success o) eqn:Hs; simpl.
    + rewrite filter_app, <- app_assoc. simpl.
      rewrite filter_cons_False by congruence.
      by rewrite filter_nil, app_nil_r.
    + rewrite filter_app, <- (app_assoc pre). simpl.
      destruct (sobjects !! n) as [so|] eqn:Hso.
      * rewrite filter_cons_True by done. rewrite filter_nil.
        rewrite (insert_middle pre _ o _ n) by done.
        by rewrite list_lookup_middle by done.
      * rewrite filter_cons_True by done. rewrite filter_nil.
        by rewrite list_lookup_middle by done.
Qed.

Lemma Errors_spec (oprs : list OpResponse) startIndex sobjects :
  Errors oprs startIndex sobjects
  = (imap (annotate startIndex sobjects) oprs,
     filter (fun o => op_Success o = false)
            (imap (annotate startIndex sobjects) oprs)).
Proof.
  unfold Errors. rewrite Errors_prefix by done.
  by rewrite firstn_all, drop_all, app_nil_r.
Qed.

Lemma int_wrap_id (z : Z) : (- 2 ^ 63 <= z < 2 ^ 63)%Z -> int_wrap z = z.
Proof. intros H. unfold int_wrap. rewrite Z.mod_small; lia. Qed.

Lemma filter_annotate_indexed startIndex sobjects (oprs : list OpResponse) j :
  filter (fun o => op_Success o = false)
         (imap (fun i => annotate startIndex sobjects (j + i)) oprs)
  = map (fun p => annotate startIndex sobjects (fst p) (snd p))
        (filter (fun p => op_Success (snd p) = false)
                (imap (fun i o => (j + i, o)) oprs)).
Proof.
  revert j. induction oprs as [|o oprs IH]; intros j; [done|].
  rewrite !imap_cons.
  rewrite (imap_ext _ (fun i => annotate startIndex sobjects (S j + i)))
    by (intros; simpl; f_equal; lia).
  rewrite (imap_ext (_ ∘ S) (fun i o => (S j + i, o)))
    by (intros; simpl; f_equal; lia).
  rewrite Nat.add_0_r.
  destruct (op_Success o) eqn:Hs.
  - rewrite !filter_cons_False; [exact (IH (S j))| |]; simpl;
      rewrite ?annotate_Success; congruence.
  - rewrite !filter_cons_True; [|simpl; done|by rewrite annotate_Success].
    simpl. f_equal. exact (IH (S j)).
Qed.

(** C10. [Errors] writes into the slice it is called on: an
    unsuccessful outcome whose index has a source entity is replaced, in
    the receiver itself, by the outcome carrying the computed record
    index and that entity; all other elements stay; and the returned
    list consists of the unsuccessful elements of the receiver as the
    call leaves it. *)
Theorem C10_Errors_writes_receiver (oprs : list OpResponse) (startIndex : Z)
    (sobjects : list SObject) :
  length (fst (Errors oprs startIndex sobjects)) = length oprs
  /\ (forall i o so,
        oprs !! i = Some o -> op_Success o = false -> sobjects !! i = Some so ->
        fst (Errors oprs startIndex sobjects) !! i
        = Some {| op_ID := op_ID o; op_Success := false;
                  op_Errors := op_Errors o; op_Created := op_Created o;
                  op_RecordIndex := int_wrap (Z.of_nat i + startIndex);
                  op_SObject := Some so |})
  /\ (forall i o,
        oprs !! i = Some o -> op_Success o = true \/ sobjects !! i = None ->
        fst (Errors oprs startIndex sobjects) !! i = Some o)
  /\ snd (Errors oprs startIndex sobjects)
     = filter (fun o => op_Success o = false) (fst (Errors oprs startIndex sobjects)).
Proof.
  rewrite Errors_spec. simpl. repeat split.
  - apply length_imap.
  - intros i o so Ho Hs Hso. rewrite list_lookup_imap, Ho. simpl.
    unfold annotate. rewrite Hs, Hso. unfold set_source. by rewrite Hs.
  - intros i o Ho Hcase. rewrite list_lookup_imap, Ho. simpl.
    unfold annotate. destruct (op_Success o); [done|].
    destruct Hcase as [?| ->]; done.
Qed.

(** C8, as the code has it.  [Errors] returns exactly the outcomes whose
    success flag is false, in order.  A returned outcome whose index [i]
    in the receiver is below [len(sobjects)] carries the record index
    [i + startIndex] and the entity [sobjects[i]]; a returned outcome at
    an index from [len(sobjects)] on is the receiver's element as it
    was, record index included. *)
Theorem C8_Errors_returns_failures (oprs : list OpResponse) (startIndex : Z)
    (sobjects : list SObject) :
  snd (Errors oprs startIndex sobjects)
  = map (fun p : nat * OpResponse =>
           match sobjects !! fst p with
           | Some so =>
               {| op_ID := op_ID (snd p); op_Success := false;
                  op_Errors := op_Errors (snd p); op_Created := op_Created (snd p);
                  op_RecordIndex := int_wrap (Z.of_nat (fst p) + startIndex);
                  op_SObject := Some so |}
           | None => snd p
           end)
        (filter (fun p => op_Success (snd p) = false) (imap pair oprs)).
Proof.
  rewrite Errors_spec. simpl.
  etransitivity; [exact (filter_annotate_indexed startIndex sobjects oprs 0)|].
  change (imap (fun i o => (0 + i, o)) oprs) with (imap pair oprs).
  apply map_ext_in. intros [i o] Hin.
  apply list_elem_of_In, list_elem_of_filter in Hin. destruct Hin as [Hs _].
  simpl in *. unfold annotate, set_source. rewrite Hs.
  by destruct (sobjects !! i).
Qed.

(** C8 as stated fails: with no source entities supplied, the failure
    at index 1 of a call with start index 5 is returned with the record
    index it had (0), not with its position 6. *)
Lemma C8_counterexample :
  exists o,
    snd (Errors [ex_succeeded; ex_failed] 5 []) = [o]
    /\ op_Success o = false
    /\ op_RecordIndex o <> (5 + 1)%Z.
Proof. exists ex_failed. repeat split. unfold ex_failed. simpl. lia. Qed.

(** The scenario of the specification: failures at indexes 2 and 5 of
    six outcomes come back as two items with record indexes 2 and 5 and
    the entities at those indexes. *)
Example Errors_indices_2_and_5 :
  map (fun o => (op_RecordIndex o, op_SObject o))
      (snd (Errors [ex_succeeded; ex_succeeded; ex_failed; ex_succeeded;
                    ex_succeeded; ex_failed] 0 (map SDeleteID ["a"; "b"; "c"; "d"; "e"; "f"])))
  = [(2%Z, Some (SDeleteID "c")); (5%Z, Some (SDeleteID "f"))].
Proof. reflexivity. Qed.

(** The receiver is not what it was before the call. *)
Example Errors_changes_receiver :
  fst (Errors [ex_failed] 7 [SDeleteID "a"]) <> [ex_failed].
Proof. intros H. vm_compute in H. discriminate H. Qed.

(** ** The collection-write operations *)

Section Operations.

Context {W : Type}.
Variable Call_OpResponses : W -> Heap -> Request -> W * (goerror + list OpResponse).

Lemma run_empty (sv : Service W) allOrNone op st :
  op_entities op = [] ->
  run Call_OpResponses sv allOrNone op st = Some ((None, Some ErrZeroRecords), st).
Proof.
  destruct op as [recs|recs|f recs|ids]; simpl; intros Hnil.
  - by subst recs.
  - by subst recs.
  - by subst recs.
  - by destruct ids.
Qed.

(** Every operation returns: the fuel its loop is given is enough. *)
Lemma run_returns (sv : Service W) allOrNone op w h :
  exists ret st', run Call_OpResponses sv allOrNone op (init w h) = Some (ret, st').
Proof.
  destruct (decide (op_entities op = [])) as [Hnil|Hne].
  - eexists _, _. by apply run_empty.
  - destruct (run_Run Call_OpResponses sv allOrNone op w h Hne)
      as (ret & st' & Hrun & _). by exists ret, st'.
Qed.

(** C3. Each of the four operations, given an empty list, returns
    [ErrZeroRecords] and a nil aggregate, and leaves the state, with its
    trace of Transport calls, as it was: no call is made. *)
Theorem C3_empty_list_ErrZeroRecords (sv : Service W) (allOrNone : bool)
    (externalIDField : string) (st : State W) :
  CreateRecords Call_OpResponses sv allOrNone [] st
    = Some ((None, Some ErrZeroRecords), st)
  /\ UpdateRecords Call_OpResponses sv allOrNone [] st
    = Some ((None, Some ErrZeroRecords), st)
  /\ UpsertRecords Call_OpResponses sv allOrNone externalIDField [] st
    = Some ((None, Some ErrZeroRecords), st)
  /\ DeleteRecords Call_OpResponses sv allOrNone [] st
    = Some ((None, Some ErrZeroRecords), st).
Proof. repeat split. Qed.

(** C2. Every operation returns.  If its [k]-th Transport call (counted
    from 0) failed with [e], that call is the last one made, the error
    returned is [e] itself, and the aggregate returned holds exactly the
    outcomes of the calls before it. *)
Theorem C2_transport_failure_stops (sv : Service W) (allOrNone : bool) (op : Op)
    (w : W) (h : Heap) :
  exists ret st',
    run Call_OpResponses sv allOrNone op (init w h) = Some (ret, st')
    /\ forall k rq e,
         st_calls st' !! k = Some (rq, inl e) ->
         length (st_calls st') = S k
         /\ ret = (Some (outcomes (take k (st_calls st'))), Some e).
Proof.
  destruct (decide (op_entities op = [])) as [Hnil|Hne].
  - eexists _, _. split; [by apply run_empty|]. done.
  - destruct (run_Run Call_OpResponses sv allOrNone op w h Hne)
      as (ret & st' & Hrun & HRun).
    exists ret, st'. split; [done|]. intros k rq e Hk.
    destruct op; simpl in HRun;
      destruct (Run_call_failed _ _ _ _ _ _ _ _ _ _ _ HRun k rq e Hk)
        as (H1 & H2 & _); done.
Qed.

(** The three operations built on [CompositeCall] stop at a hook error
    with the outcomes of every batch sent, the last one included. *)
Lemma composite_hook_failure_stops (sv : Service W) (allOrNone : bool) (op : Op)
    (w : W) (h : Heap) :
  (forall ids, op <> OpDelete ids) ->
  exists ret st',
    run Call_OpResponses sv allOrNone op (init w h) = Some (ret, st')
    /\ forall k ev e,
         st_logs st' !! k = Some ev -> lg_err ev = Some e ->
         length (st_calls st') = S k
         /\ ret = (Some (outcomes (st_calls st')), Some e).
Proof.
  intros Hop. destruct (decide (op_entities op = [])) as [Hnil|Hne].
  - eexists _, _. split; [by apply run_empty|]. done.
  - destruct (run_Run Call_OpResponses sv allOrNone op w h Hne)
      as (ret & st' & Hrun & HRun).
    exists ret, st'. split; [done|]. intros k ev e Hk He.
    destruct op; simpl in HRun; try (by edestruct Hop);
      destruct (Run_hook_failed _ _ _ _ _ _ _ _ _ _ _ HRun k ev e Hk He)
        as (H1 & _ & H2); done.
Qed.

(** [DeleteRecords] stops at a hook error as well, but returns a nil
    aggregate. *)
Lemma DeleteRecords_hook_failure_nil (sv : Service W) (allOrNone : bool)
    (ids : list string) (w : W) (h : Heap) :
  exists ret st',
    DeleteRecords Call_OpResponses sv allOrNone ids (init w h) = Some (ret, st')
    /\ forall k ev e,
         st_logs st' !! k = Some ev -> lg_err ev = Some e ->
         length (st_calls st') = S k /\ ret = (None, Some e).
Proof.
  destruct (decide (op_entities (OpDelete ids) = [])) as [Hnil|Hne].
  - eexists _, _. split; [by apply (run_empty sv allOrNone (OpDelete ids))|]. done.
  - destruct (run_Run Call_OpResponses sv allOrNone (OpDelete ids) w h Hne)
      as (ret & st' & Hrun & HRun).
    exists ret, st'. split; [done|]. intros k ev e Hk He. simpl in HRun.
    destruct (Run_hook_failed _ _ _ _ _ _ _ _ _ _ _ HRun k ev e Hk He)
      as (H1 & _ & H2); done.
Qed.

End Operations.

(** The end-to-end scenario of the specification: 479 entities at batch
    size 100 with the entity at position 462 rejected make five calls of
    100, 100, 100, 100 and 79 records, an aggregate of 479 outcomes, and
    one failure, at record index 462. *)
Example CreateRecords_479_by_100 :
  exists results st',
    CreateRecords echo_Call (WithBatchSize New 100) false ex_479 (init 0 ∅)
    = Some ((Some results, None), st')
    /\ map (fun ev => match snd ev with inr res => length res | inl _ => 0 end)
           (st_calls st') = [100; 100; 100; 100; 79]
    /\ length results = 479
    /\ map op_RecordIndex (snd (Errors results 0 ex_479)) = [462%Z].
Proof.
  eexists _, _. split; [vm_compute; reflexivity|].
  repeat split; vm_compute; reflexivity.
Qed.

(** C1 fails for [DeleteRecords].  One id, a Transport that answers with
    one outcome, a hook that returns an error: the call returns the
    hook's error with a nil aggregate, where [CreateRecords] on the same
    world returns the outcome of the batch. *)
Theorem C1_DeleteRecords_hook_error_nil_aggregate :
  let w := mkScript [inr [ex_succeeded]] [Some "stop"] in
  fst <$> DeleteRecords scripted_Call ex_sv_logged false ["0033000002239QCA"] (init w ∅)
    = Some (None, Some "stop")
  /\ fst <$> CreateRecords scripted_Call ex_sv_logged false [ex_contact "P00067f"] (init w ∅)
    = Some (Some [ex_succeeded], Some "stop").
Proof. split; vm_compute; reflexivity. Qed.

(** ** The splitter of the specification *)

Lemma split_spec_length {A} (B : nat) (items : list A) :
  length (split_spec B items) = ceil_div (length items) B.
Proof. unfold split_spec. by rewrite length_map, length_seq. Qed.

Lemma split_spec_lookup {A} (B : nat) (items : list A) (k : nat) :
  k < ceil_div (length items) B ->
  split_spec B items !! k = Some (k * B, take B (drop (k * B) items)).
Proof.
  intros Hk. unfold split_spec.
  change (map ?f ?l) with (f <$> l).
  rewrite list_lookup_fmap, lookup_seq_lt by done. done.
Qed.

Lemma concat_chunks {A} (B : nat) (items : list A) (m : nat) :
  concat (map (fun k => take B (drop (k * B) items)) (seq 0 m)) = take (m * B) items.
Proof.
  induction m as [|m IH]; [done|].
  rewrite seq_S, map_app, concat_app, IH. simpl. rewrite app_nil_r.
  rewrite take_take_drop. f_equal. lia.
Qed.

Lemma ceil_div_covers (n b : nat) : 0 < b -> n <= ceil_div n b * b.
Proof.
  intros Hb. destruct (decide (n <= ceil_div n b * b)) as [|Hn]; [done|].
  assert (ceil_div n b < ceil_div n b); [|lia].
  apply ceil_div_lt; [done|lia].
Qed.

Lemma split_spec_concat {A} (B : nat) (items : list A) :
  0 < B -> concat (map snd (split_spec B items)) = items.
Proof.
  intros HB. unfold split_spec. rewrite map_map. simpl.
  rewrite concat_chunks. apply take_ge. by apply ceil_div_covers.
Qed.

Lemma split_spec_ok {A} (B : nat) (items : list A) : 0 < B -> split_ok B items.
Proof.
  intros HB. unfold split_ok. split; [apply split_spec_length|].
  assert (Hall : Forall (fun b => 1 <= length (snd b) <= B
                     /\ snd b = slice items (fst b) (fst b + length (snd b))
                     /\ head (snd b) = items !! fst b) (split_spec B items)).
  { apply Forall_lookup. intros k [off sub] Hk.
    assert (Hlt : k < ceil_div (length items) B).
    { rewrite <- (split_spec_length B items). by eapply lookup_lt_Some. }
    rewrite split_spec_lookup in Hk by done. simplify_eq. simpl.
    apply ceil_div_lt in Hlt; [|done].
    rewrite length_take, length_drop. repeat split; try lia.
    - unfold slice.
      destruct (decide (B <= length items - k * B)) as [Hle|Hgt].
      + f_equal. lia.
      + rewrite !take_ge; [done| |]; rewrite length_drop; lia.
    - rewrite head_lookup, lookup_take_lt, lookup_drop by lia.
      f_equal. lia. }
  split; [done|].
  pose proof (split_spec_concat B items HB) as Hc.
  split; [|done].
  rewrite <- Hc at 2. rewrite length_concat. f_equal.
  by rewrite map_map.
Qed.

Section RunSplit.

Context {A : Type}.
Variable items : list A.
Variable batchSz : nat.
Variable request_of : list A -> Request.
Variable view_of : list A -> list SObject.
Variable hooked : bool.
Variable on_hook_error : list OpResponse -> option (list OpResponse).

(** The calls and hook calls of a run from the start of the list are
    those of the specification's split. *)
Lemma Run_issued_as_split cs ls ret :
  0 < batchSz ->
  Run items batchSz request_of view_of hooked on_hook_error 0 [] cs ls ret ->
  issued_as_split items batchSz request_of view_of hooked cs ls ret.
Proof.
  intros HB HR. unfold issued_as_split, CallEvent in *.
  assert (Hsp : forall k, k * batchSz < length items ->
            split_spec batchSz items !! k
            = Some (k * batchSz, take batchSz (drop (k * batchSz) items))).
  { intros k Hk. apply split_spec_lookup. by apply ceil_div_lt. }
  split; [|split].
  - apply list_eq. intros k.
    change (map ?f ?l) with (f <$> l). rewrite !list_lookup_fmap.
    destruct (cs !! k) as [ev|] eqn:Hev; simpl.
    + destruct (Run_requests _ _ _ _ _ _ _ _ _ _ _ HR k ev Hev) as [Hlt Hrq].
      simpl in Hlt, Hrq.
      rewrite lookup_take_lt by (by eapply lookup_lt_Some).
      rewrite Hsp by done. rewrite ?Hev. simpl. by rewrite Hrq.
    + rewrite ?Hev. apply lookup_ge_None in Hev.
      rewrite lookup_take_ge by done. done.
  - destruct hooked eqn:Hh; [|by eapply Run_unhooked].
    apply list_eq. intros k.
    change (map ?f ?l) with (f <$> l). rewrite !list_lookup_fmap.
    destruct (ls !! k) as [ev|] eqn:Hev; simpl.
    + destruct (Run_logs _ _ _ _ _ _ _ _ _ _ _ HR k ev Hev) as (Hoff & Hrecs & Hc).
      destruct (Run_requests _ _ _ _ _ _ _ _ _ _ _ HR k _ Hc) as [Hlt _].
      simpl in Hoff, Hrecs, Hlt.
      rewrite lookup_take_lt by (by eapply lookup_lt_Some).
      rewrite Hsp by done. rewrite ?Hev. simpl. by rewrite Hoff, Hrecs.
    + rewrite ?Hev. apply lookup_ge_None in Hev.
      rewrite lookup_take_ge by done. done.
  - intros Hret. rewrite split_spec_length. by eapply Run_count.
Qed.

End RunSplit.

(** C4. Every operation returns, and its batches are those of the
    specification's splitter at the effective batch size [B]: the split
    has [ceil(N/B)] batches, each a non-empty contiguous sub-slice of at
    most [B] items beginning at its offset, with sizes summing to [N]
    and concatenation equal to the list; the Transport requests made are
    built, in order, from the sub-slices of the split and the hook is
    given their offsets; and a call that returns no error has made all
    [ceil(N/B)] of them. *)
Theorem C4_batches_follow_split {W}
    (Call_OpResponses : W -> Heap -> Request -> W * (goerror + list OpResponse))
    (sv : Service W) (allOrNone : bool) (op : Op) (w : W) (h : Heap) :
  exists ret st',
    run Call_OpResponses sv allOrNone op (init w h) = Some (ret, st')
    /\ op_batches sv allOrNone h op (st_calls st') (st_logs st') ret.
Proof.
  pose proof (MaxBatchSize_pos sv) as HB.
  destruct (decide (op_entities op = [])) as [Hnil|Hne].
  - eexists _, _. split; [by apply run_empty|]. simpl.
    assert (Hempty : forall A (l : list A) rq vw,
      l = [] ->
      split_ok (Z.to_nat (MaxBatchSize sv)) l
      /\ issued_as_split l (Z.to_nat (MaxBatchSize sv)) rq vw (hooked_of sv)
           [] [] (None, Some ErrZeroRecords)).
    { intros A l rq vw ->. split; [by apply split_spec_ok|].
      unfold issued_as_split. simpl. repeat split; [|done].
      by destruct (hooked_of sv). }
    destruct op as [recs|recs|f recs|ids]; simpl in *; apply Hempty; try done.
    by destruct ids.
  - destruct (run_Run Call_OpResponses sv allOrNone op w h Hne)
      as (ret & st' & Hrun & HRun).
    exists ret, st'. split; [done|].
    destruct op; simpl in *;
      (split; [by apply split_spec_ok | by eapply Run_issued_as_split]).
Qed.

(** ** Alignment of outcomes with entities *)

Section RunAligned.

Context {A : Type}.
Variable items : list A.
Variable batchSz : nat.
Variable request_of : list A -> Request.
Variable view_of : list A -> list SObject.
Variable hooked : bool.
Variable on_hook_error : list OpResponse -> option (list OpResponse).
Variable R : A -> OpResponse -> Prop.

Lemma Run_aligned i opResp cs ls ret :
  Run items batchSz request_of view_of hooked on_hook_error i opResp cs ls ret ->
  snd ret = None ->
  (forall k rq res, cs !! k = Some (rq, inr res) ->
     Forall2 R (take batchSz (drop (i + k * batchSz) items)) res) ->
  Forall2 R (take i items) opResp ->
  exists out, fst ret = Some out /\ Forall2 R items out.
Proof.
  induction 1 as [i o Hi|i o err Hi|i o res err Hi Hh|i o res cs ls ret Hi Hh HR IH
                 |i o res cs ls ret Hi Hh HR IH]; intros Hret Hcs Hacc; simpl in *;
    try done.
  - exists o. split; [done|]. by rewrite take_ge in Hacc.
  - apply IH; [done| |].
    + intros k rq res' Hk.
      replace (i + batchSz + k * batchSz) with (i + S k * batchSz) by lia.
      exact (Hcs (S k) rq res' Hk).
    + rewrite <- take_take_drop. apply Forall2_app; [done|].
      specialize (Hcs 0 _ res eq_refl). by rewrite Nat.add_0_r in Hcs.
  - apply IH; [done| |].
    + intros k rq res' Hk.
      replace (i + batchSz + k * batchSz) with (i + S k * batchSz) by lia.
      exact (Hcs (S k) rq res' Hk).
    + rewrite <- take_take_drop. apply Forall2_app; [done|].
      specialize (Hcs 0 _ res eq_refl). by rewrite Nat.add_0_r in Hcs.
Qed.

End RunAligned.

(** C5. Every operation returns.  When it returns no error and each
    Transport call answered its batch with one outcome per entity, in
    order ([R] relates an entity to the outcome given for it), the
    aggregate has the length of the input and its [i]-th outcome is the
    one given for the [i]-th input entity. *)
Theorem C5_outcomes_aligned {W}
    (Call_OpResponses : W -> Heap -> Request -> W * (goerror + list OpResponse))
    (sv : Service W) (allOrNone : bool) (op : Op) (w : W) (h : Heap)
    (R : SObject -> OpResponse -> Prop) :
  exists ret st',
    run Call_OpResponses sv allOrNone op (init w h) = Some (ret, st')
    /\ (snd ret = None ->
        (forall k rq res,
           st_calls st' !! k = Some (rq, inr res) ->
           Forall2 R (take (Z.to_nat (MaxBatchSize sv))
                        (drop (k * Z.to_nat (MaxBatchSize sv)) (op_entities op)))
                   res) ->
        exists results,
          fst ret = Some results
          /\ length results = length (op_entities op)
          /\ forall i o, op_entities op !! i = Some o ->
               exists r, results !! i = Some r /\ R o r).
Proof.
  destruct (decide (op_entities op = [])) as [Hnil|Hne].
  - eexists _, _. split; [by apply run_empty|]. done.
  - destruct (run_Run Call_OpResponses sv allOrNone op w h Hne)
      as (ret & st' & Hrun & HRun).
    exists ret, st'. split; [done|]. intros Hret Hcalls.
    assert (Hall : exists out, fst ret = Some out /\ Forall2 R (op_entities op) out).
    { destruct op as [recs|recs|f recs|ids]; simpl in HRun, Hcalls |- *;
        try (eapply Run_aligned; [exact HRun|done|exact Hcalls|constructor]).
      destruct (Run_aligned ids _ _ _ _ _ (fun a r => R (SDeleteID a) r)
                  _ _ _ _ _ HRun Hret) as (out & Hout & HF).
      - intros k rq res Hk. specialize (Hcalls k rq res Hk).
        change (map SDeleteID ids) with (SDeleteID <$> ids) in Hcalls.
        rewrite <- fmap_drop, <- fmap_take in Hcalls.
        apply (proj1 (Forall2_fmap_l _ _ _ _)) in Hcalls. exact Hcalls.
      - constructor.
      - exists out. split; [done|]. apply (proj2 (Forall2_fmap_l _ _ _ _)). exact HF. }
    destruct Hall as (out & Hout & HF). exists out. split; [done|].
    split; [symmetry; by eapply Forall2_length|].
    intros i o Ho. by eapply Forall2_lookup_l.
Qed.

(** ** Effect of tagging on the caller's entities *)

Lemma tagged_in_place_refl recs h : tagged_in_place recs h h.
Proof. intros l. split; done. Qed.

Lemma tagged_in_place_trans recs h1 h2 h3 :
  tagged_in_place recs h1 h2 -> tagged_in_place recs h2 h3 ->
  tagged_in_place recs h1 h3.
Proof.
  intros H12 H23 l. destruct (H12 l) as [A1 B1], (H23 l) as [A2 B2]. split.
  - intros Hl. rewrite A2, A1; done.
  - intros key Hk. rewrite B2, B1; done.
Qed.

Lemma WithAttr_tagged_in_place recs ref r h :
  r ∈ recs -> tagged_in_place recs h (snd (WithAttr ref r h)).
Proof.
  intros Hr. destruct r as [s|[l0|]|id]; simpl; try apply tagged_in_place_refl.
  intros l. destruct (decide (l0 = l)) as [->|Hne].
  - split; [done|]. intros key Hk.
    rewrite lookup_insert_eq. simpl. by rewrite lookup_insert_ne.
  - rewrite lookup_insert_ne by done. split; done.
Qed.

Lemma WithAttr_range_tagged_in_place recs rs h :
  (forall r, r ∈ rs -> r ∈ recs) ->
  tagged_in_place recs h (snd (WithAttr_range rs h)).
Proof.
  revert h. induction rs as [|r rs IH]; intros h Hsub; simpl.
  - apply tagged_in_place_refl.
  - pose proof (WithAttr_tagged_in_place recs "" r h (Hsub r ltac:(left))) as H1.
    destruct (WithAttr "" r h) as [c h1]. simpl in H1.
    specialize (IH h1 (fun r' Hr' => Hsub r' ltac:(by right))).
    destruct (WithAttr_range rs h1) as [cs h2]. simpl in *.
    by eapply tagged_in_place_trans.
Qed.

Lemma CompositeCall_loop_tagged_in_place {W}
    (Call_OpResponses : W -> Heap -> Request -> W * (goerror + list OpResponse))
    fuel (sv : Service W) allOrNone path method recs batchSz i opResp st ret st' :
  CompositeCall_loop Call_OpResponses fuel sv allOrNone path method recs
    batchSz i opResp st = Some (ret, st') ->
  tagged_in_place recs (st_heap st) (st_heap st').
Proof.
  revert i opResp st.
  induction fuel as [|fuel IH]; intros i opResp st; simpl.
  - case_decide; [done|]. intros ?; simplify_eq. apply tagged_in_place_refl.
  - case_decide as Hi; [|intros ?; simplify_eq; apply tagged_in_place_refl].
    rewrite slice_chunk.
    pose proof (WithAttr_range_tagged_in_place recs
                  (take batchSz (drop i recs)) (st_heap st)) as Hh.
    destruct (WithAttr_range _ _) as [cmdRecs h]. simpl in Hh.
    assert (Hh' : tagged_in_place recs (st_heap st) h).
    { apply Hh. intros r Hr.
      by apply (subseteq_drop i recs), (subseteq_take batchSz (drop i recs)). }
    clear Hh. unfold do_Call. simpl.
    destruct (Call_OpResponses _ _ _) as [w [err|res]].
    + intros ?; simplify_eq. done.
    + destruct (logger sv) as [lg|].
      * unfold do_log. simpl. destruct (lg w i cmdRecs res) as [w' [err|]].
        -- intros ?; simplify_eq. done.
        -- intros Hrun. apply IH in Hrun. simpl in Hrun.
           by eapply tagged_in_place_trans.
      * intros Hrun. apply IH in Hrun. simpl in Hrun.
        by eapply tagged_in_place_trans.
Qed.

Lemma run_tagged_in_place {W}
    (Call_OpResponses : W -> Heap -> Request -> W * (goerror + list OpResponse))
    (sv : Service W) allOrNone op w h ret st' :
  run Call_OpResponses sv allOrNone op (init w h) = Some (ret, st') ->
  tagged_in_place (op_entities op) h (st_heap st').
Proof.
  assert (Hcomp : forall path method recs,
    CompositeCall Call_OpResponses sv allOrNone path method recs (init w h)
      = Some (ret, st') -> tagged_in_place recs h (st_heap st')).
  { intros path method recs. unfold CompositeCall. case_decide.
    - intros ?; simplify_eq. apply tagged_in_place_refl.
    - apply CompositeCall_loop_tagged_in_place. }
  destruct op as [recs|recs|f recs|ids]; simpl.
  - apply Hcomp.
  - apply Hcomp.
  - unfold UpsertRecords. destruct recs as [|r0 recs].
    + intros ?; simplify_eq. apply tagged_in_place_refl.
    + apply Hcomp.
  - unfold DeleteRecords. case_decide.
    + intros ?; simplify_eq. apply tagged_in_place_refl.
    + intros Hrun.
      destruct (DeleteRecords_loop_Run Call_OpResponses (length ids) sv ids
                  (Z.to_nat (MaxBatchSize sv)) 0 [] (init w h))
        as (ret1 & st1 & cs & ls & Hrun1 & _ & _ & Hh & _);
        [apply MaxBatchSize_pos | lia |].
      rewrite Hrun in Hrun1. simplify_eq. rewrite Hh. apply tagged_in_place_refl.
Qed.

(** C9, as the code has it.  Every operation returns.  The records of
    each request body are the results of [WithAttr("")] on the entities
    of the batch, in order: for a struct a copy that differs from the
    entity in its attribute block only, for a [RecordMap] the map
    itself.  The caller's own data changes in one way only: the
    ["attributes"] entry of a map that was submitted as an entity; every
    other entry of every map, and every map not submitted, is as
    before. *)
Theorem C9_tagged_copies_and_frame {W}
    (Call_OpResponses : W -> Heap -> Request -> W * (goerror + list OpResponse))
    (sv : Service W) (allOrNone : bool) (op : Op) (w : W) (h : Heap) :
  exists ret st',
    run Call_OpResponses sv allOrNone op (init w h) = Some (ret, st')
    /\ (forall k rq r body,
          st_calls st' !! k = Some (rq, r) -> rq_body rq = Some body ->
          Records_ body
          = map (fun o =>
                   match o with
                   | SStruct s =>
                       SStruct {| sr_apiName := sr_apiName s;
                                  sr_Attributes :=
                                    Some (mkAttributes (sr_apiName s) "" "");
                                  sr_fields := sr_fields s |}
                   | _ => o
                   end)
                (take (Z.to_nat (MaxBatchSize sv))
                   (drop (k * Z.to_nat (MaxBatchSize sv)) (op_entities op))))
    /\ (forall l : loc,
          (SRecordMap (Some l) ∉ op_entities op -> st_heap st' !! l = h !! l)
          /\ (forall key : string, key <> "attributes" ->
                default ∅ (st_heap st' !! l) !! key = default ∅ (h !! l) !! key)).
Proof.
  destruct (decide (op_entities op = [])) as [Hnil|Hne].
  - eexists _, _. split; [by apply run_empty|]. split; [done|].
    apply (tagged_in_place_refl (op_entities op) h).
  - destruct (run_Run Call_OpResponses sv allOrNone op w h Hne)
      as (ret & st' & Hrun & HRun).
    exists ret, st'. split; [done|]. split.
    + intros k rq r body Hk Hbody.
      destruct op as [recs|recs|f recs|ids]; simpl in HRun |- *;
        destruct (Run_requests _ _ _ _ _ _ _ _ _ _ _ HRun k _ Hk) as [_ Hrq];
        simpl in Hrq; subst rq; simpl in Hbody; by simplify_eq.
    + by eapply run_tagged_in_place.
Qed.

(** C9 as stated fails for [RecordMap]: after [CreateRecords] on a list
    holding one map entity, the caller's map has an ["attributes"] entry
    it did not have before. *)
Lemma C9_counterexample :
  exists ret st',
    run scripted_Call ex_sv false (OpCreate [ex_recordmap])
        (init (mkScript [inr [ex_succeeded]] []) ex_heap) = Some (ret, st')
    /\ snd ret = None
    /\ default ∅ (ex_heap !! 1%positive) !! "attributes" = None
    /\ default ∅ (st_heap st' !! 1%positive) !! "attributes"
       = Some (VAttributesPtr (mkAttributes "" "" "")).
Proof.
  eexists _, _. split; [vm_compute; reflexivity|].
  repeat split; vm_compute; reflexivity.
Qed.

(** ** The query reader *)

Section QueryFacts.

Context {W Row : Type}.
Variable json_Unmarshal : string -> goerror + list Row.
Variable QueryEscape : string -> string.
Variable Call_QueryResponse : W -> Request -> W * (goerror + Envelope).

(** The rows a page adds: those of its records array, none when the
    member is absent or null. *)
Lemma decode_appends env (res res' : QueryResponse) (rs rs' : RecordSlice Row) l :
  decode json_Unmarshal env res rs = inr (res', rs') ->
  resultsVal rs = Some l ->
  exists new,
    resultsVal rs' = Some (l ++ new)
    /\ match env_records env with
       | Some (JArray raw) => json_Unmarshal raw = inr new
       | _ => new = []
       end.
Proof.
  unfold decode. intros Hd Hl. destruct rs as [v]. simpl in Hl. subst v.
  destruct (env_records env) as [[|raw]|]; simplify_eq.
  - exists []. by rewrite app_nil_r.
  - destruct (Records res); simpl in Hd; [done|].
    destruct (json_Unmarshal raw) as [err|new]; simplify_eq.
    by exists new.
  - exists []. by rewrite app_nil_r.
Qed.

Lemma decode_fields env (res res' : QueryResponse) (rs rs' : RecordSlice Row) :
  decode json_Unmarshal env res rs = inr (res', rs') ->
  Done res' = default (Done res) (env_done env)
  /\ NextRecordsURL res' = default (NextRecordsURL res) (env_nextRecordsUrl env)
  /\ (Records res = PtrRS -> env_records env <> Some JNull -> Records res' = PtrRS).
Proof.
  unfold decode. intros Hd.
  destruct (env_records env) as [[|raw]|]; simplify_eq; try done.
  destruct (Records res); simpl in Hd; [done|].
  destruct rs as [[l|]]; simpl in Hd; [|done].
  destruct (json_Unmarshal raw); simplify_eq. done.
Qed.

Lemma decode_array env (res : QueryResponse) (l : list Row) raw new :
  Records res = PtrRS ->
  env_records env = Some (JArray raw) ->
  json_Unmarshal raw = inr new ->
  decode json_Unmarshal env res {| resultsVal := Some l |}
  = inr ({| TotalSize := default (TotalSize res) (env_totalSize env);
            Done := default (Done res) (env_done env);
            NextRecordsURL := default (NextRecordsURL res) (env_nextRecordsUrl env);
            Records := PtrRS |},
         {| resultsVal := Some (l ++ new) |}).
Proof. intros Hp Hr Hj. unfold decode. rewrite Hr, Hp. simpl. by rewrite Hj. Qed.

Lemma query_loop_done fuel (sv qsv : Service W) fmtQry (res : QueryResponse)
    (rs : RecordSlice Row) w calls :
  Done res = true ->
  query_loop json_Unmarshal Call_QueryResponse fuel sv qsv fmtQry res rs w calls
  = Some (mkQueryOutcome None (results_of rs) w calls).
Proof. intros Hd. destruct fuel; simpl; by rewrite Hd. Qed.

Lemma query_loop_next fuel (sv qsv : Service W) fmtQry (res res' : QueryResponse)
    (rs rs' : RecordSlice Row) w w' calls env :
  Done res = false ->
  Call_QueryResponse w (generateRequest qsv "GET" fmtQry None) = (w', inr env) ->
  decode json_Unmarshal env res rs = inr (res', rs') ->
  (0 <? maxrows sv)%Z && (maxrows sv <=? Z.of_nat (rows rs'))%Z = false ->
  query_loop json_Unmarshal Call_QueryResponse (S fuel) sv qsv fmtQry res rs w calls
  = query_loop json_Unmarshal Call_QueryResponse fuel sv qsv (NextRecordsURL res')
      res' rs' w' (calls ++ [generateRequest qsv "GET" fmtQry None]).
Proof. intros Hd Hc Hdec Hcap. simpl. by rewrite Hd, Hc, Hdec, Hcap. Qed.

(** C6. At any turn of the query loop with a row cap [C > 0]: when the
    page just received decodes and brings the accumulator to [C] rows or
    more, the call ends at once without error, whatever the page's done
    flag, and the caller's slice holds the first [C] rows of the
    accumulator, exactly [C] of them, in the order they arrived. *)
Theorem C6_row_cap_truncates (fuel : nat) (sv qsv : Service W) (fmtQry : string)
    (res res' : QueryResponse) (rs : RecordSlice Row) (w w' : W)
    (calls : list Request) (env : Envelope) (l : list Row) :
  Done res = false ->
  Call_QueryResponse w (generateRequest qsv "GET" fmtQry None) = (w', inr env) ->
  decode json_Unmarshal env res rs = inr (res', {| resultsVal := Some l |}) ->
  (0 < maxrows sv)%Z ->
  (maxrows sv <= Z.of_nat (length l))%Z ->
  query_loop json_Unmarshal Call_QueryResponse (S fuel) sv qsv fmtQry res rs w calls
  = Some {| q_err := None;
            q_results := ResultsSlice (take (Z.to_nat (maxrows sv)) l);
            q_world := w';
            q_calls := calls ++ [generateRequest qsv "GET" fmtQry None] |}
  /\ length (take (Z.to_nat (maxrows sv)) l) = Z.to_nat (maxrows sv).
Proof.
  intros Hdone Hcall Hdec Hpos Hcap. simpl. rewrite Hdone, Hcall, Hdec.
  unfold rows. simpl.
  assert (H1 : (0 <? maxrows sv)%Z = true) by lia.
  assert (H2 : (maxrows sv <=? Z.of_nat (length l))%Z = true) by lia.
  rewrite H1, H2. simpl. unfold results_of, slice_rs, slice. simpl.
  rewrite Nat.sub_0_r, drop_0. split; [done|].
  rewrite length_take. lia.
Qed.

(** A query with a row cap that returns without error leaves at most
    that many rows in the caller's slice. *)
Lemma query_loop_cap_bound fuel (sv qsv : Service W) fmtQry (res : QueryResponse)
    (rs : RecordSlice Row) w calls out l :
  (0 < maxrows sv)%Z ->
  (Done res = true -> (Z.of_nat (rows rs) < maxrows sv)%Z) ->
  query_loop json_Unmarshal Call_QueryResponse fuel sv qsv fmtQry res rs w calls
    = Some out ->
  q_err out = None -> q_results out = ResultsSlice l ->
  (Z.of_nat (length l) <= maxrows sv)%Z.
Proof.
  intros Hpos. revert fmtQry res rs w calls.
  induction fuel as [|fuel IH]; intros fmtQry res rs w calls Hinv; simpl.
  - destruct (Done res) eqn:Hd; [|done]. intros ? _ Hres; simplify_eq/=.
    specialize (Hinv eq_refl). unfold results_of, rows in *.
    destruct (resultsVal rs); simplify_eq/=. lia.
  - destruct (Done res) eqn:Hd.
    { intros ? _ Hres; simplify_eq/=.
      specialize (Hinv eq_refl). unfold results_of, rows in *.
      destruct (resultsVal rs); simplify_eq/=. lia. }
    destruct (Call_QueryResponse _ _) as [w1 [err|env]];
      [intros ? Herr; by simplify_eq/=|].
    destruct (decode _ env res rs) as [err|[res1 rs1]];
      [intros ? Herr; by simplify_eq/=|].
    destruct ((0 <? maxrows sv)%Z && (maxrows sv <=? Z.of_nat (rows rs1))%Z) eqn:Hc.
    + intros ? _ Hres; simplify_eq/=.
      unfold results_of, slice_rs, slice in Hres. simpl in Hres.
      destruct (resultsVal rs1); simplify_eq/=.
      rewrite length_take. lia.
    + apply IH. intros _. lia.
Qed.

(** C7. Decoding a page appends: the accumulator after a page is the
    accumulator before it followed by the rows of the page's records
    array, in the order of the array.  And a query without a row cap
    into an empty slice, served three pages of 200, 200 and 60 rows of
    which only the third reports done, returns without error after
    three calls with the 460 rows in page order. *)
Theorem C7_pages_append :
  (forall env (res res' : QueryResponse) (rs rs' : RecordSlice Row) l,
     decode json_Unmarshal env res rs = inr (res', rs') ->
     resultsVal rs = Some l ->
     exists new,
       resultsVal rs' = Some (l ++ new)
       /\ match env_records env with
          | Some (JArray raw) => json_Unmarshal raw = inr new
          | _ => new = []
          end)
  /\ (forall (sv : Service W) qry w0 w1 w2 w3 e1 e2 e3 raw1 raw2 raw3 p1 p2 p3
        u1 u2 fuel,
      let qsv := {| isqry := true; batchSize := batchSize sv;
                    maxrows := maxrows sv; logger := logger sv |} in
      let rq0 := generateRequest qsv "GET" ("query/?q=" +:+ QueryEscape qry) None in
      let rq1 := generateRequest qsv "GET" u1 None in
      let rq2 := generateRequest qsv "GET" u2 None in
      (maxrows sv <= 0)%Z ->
      Call_QueryResponse w0 rq0 = (w1, inr e1) ->
      Call_QueryResponse w1 rq1 = (w2, inr e2) ->
      Call_QueryResponse w2 rq2 = (w3, inr e3) ->
      env_records e1 = Some (JArray raw1) -> json_Unmarshal raw1 = inr p1 ->
      env_records e2 = Some (JArray raw2) -> json_Unmarshal raw2 = inr p2 ->
      env_records e3 = Some (JArray raw3) -> json_Unmarshal raw3 = inr p3 ->
      env_done e1 <> Some true -> env_nextRecordsUrl e1 = Some u1 ->
      env_done e2 <> Some true -> env_nextRecordsUrl e2 = Some u2 ->
      env_done e3 = Some true ->
      length p1 = 200 -> length p2 = 200 -> length p3 = 60 ->
      3 <= fuel ->
      Query json_Unmarshal QueryEscape Call_QueryResponse fuel sv qry
            (ResultsSlice []) w0
      = Some {| q_err := None; q_results := ResultsSlice (p1 ++ p2 ++ p3);
                q_world := w3; q_calls := [rq0; rq1; rq2] |}
      /\ length (p1 ++ p2 ++ p3) = 460).
Proof.
  split; [apply decode_appends|].
  intros sv qry w0 w1 w2 w3 e1 e2 e3 raw1 raw2 raw3 p1 p2 p3 u1 u2 fuel
    qsv rq0 rq1 rq2 Hcap HC1 HC2 HC3 Hr1 Hj1 Hr2 Hj2 Hr3 Hj3 Hd1 Hu1 Hd2 Hu2 Hd3
    Hl1 Hl2 Hl3 Hfuel.
  split; [|rewrite !length_app; lia].
  assert (Hnocap : (0 <? maxrows sv)%Z = false) by lia.
  assert (Hnc : forall n, (0 <? maxrows sv)%Z && (maxrows sv <=? n)%Z = false)
    by (intros n; by rewrite Hnocap).
  assert (E1 : default false (env_done e1) = false)
    by (destruct (env_done e1) as [[|]|]; done).
  assert (E2 : default false (env_done e2) = false)
    by (destruct (env_done e2) as [[|]|]; done).
  destruct fuel as [|[|[|fuel]]]; try lia.
  unfold Query, query. simpl NewRecordSlice. cbv iota beta. fold qsv.
  erewrite query_loop_next;
    [|done|exact HC1|by eapply decode_array|apply Hnc].
  simpl NextRecordsURL. rewrite Hu1. simpl default at 1.
  erewrite query_loop_next;
    [|simpl; exact E1|exact HC2|by eapply decode_array|apply Hnc].
  simpl NextRecordsURL. rewrite Hu2. simpl default at 1.
  erewrite query_loop_next;
    [|simpl; by rewrite E1|exact HC3|by eapply decode_array|apply Hnc].
  rewrite query_loop_done by (simpl; by rewrite Hd3).
  unfold results_of. simpl. by rewrite <- app_assoc.
Qed.

End QueryFacts.

(** The capped query of the test: the first page of 200 rows is cut to
    the cap of 8 and no second request is made. *)
Example Query_capped_at_8 :
  Query ex_json_Unmarshal ex_QueryEscape ex_query_server 1 ex_sv_capped "firstset"
        (ResultsSlice []) 0
  = Some {| q_err := None; q_results := ResultsSlice (seq 0 8); q_world := 1;
            q_calls := [generateRequest ex_qsv_capped "GET" "query/?q=firstset" None] |}.
Proof. reflexivity. Qed.


(** ** The theorems at sample inputs *)

Lemma C2_transport_failure_stops_witness :
  exists st',
    run scripted_Call ex_sv false (OpCreate ex_three)
        (init (mkScript [inr [ex_succeeded; ex_succeeded]; inl "503"] []) ∅)
    = Some ((Some [ex_succeeded; ex_succeeded], Some "503"), st')
    /\ length (st_calls st') = 2.
Proof.
  destruct (C2_transport_failure_stops scripted_Call ex_sv false (OpCreate ex_three)
              (mkScript [inr [ex_succeeded; ex_succeeded]; inl "503"] []) ∅)
    as (ret & st' & Hrun & H).
  pose proof Hrun as E. vm_compute in E. injection E as Eret Est.
  exists st'.
  edestruct (H 1) as [H1 H2]; [rewrite <- Est; reflexivity|].
  split; [|exact H1].
  rewrite Hrun, H2. rewrite <- Est. reflexivity.
Defined.

Lemma C4_batches_follow_split_witness :
  exists st',
    run scripted_Call ex_sv_logged false (OpCreate ex_three)
        (init (mkScript [inr [ex_succeeded; ex_succeeded]; inr [ex_succeeded]] []) ∅)
    = Some ((Some [ex_succeeded; ex_succeeded; ex_succeeded], None), st')
    /\ length (st_calls st') = length (split_spec 2 ex_three)
    /\ split_spec 2 ex_three
       = [(0, [ex_contact "P00067f"; ex_contact "P000680"]);
          (2, [ex_contact "P0006ee"])].
Proof.
  destruct (C4_batches_follow_split scripted_Call ex_sv_logged false (OpCreate ex_three)
              (mkScript [inr [ex_succeeded; ex_succeeded]; inr [ex_succeeded]] []) ∅)
    as (ret & st' & Hrun & _ & _ & _ & Hlen).
  pose proof Hrun as E. vm_compute in E. injection E as Eret Est.
  exists st'. split; [|split].
  - rewrite Hrun. rewrite <- Eret. reflexivity.
  - apply Hlen. rewrite <- Eret. reflexivity.
  - reflexivity.
Defined.

Lemma C5_outcomes_aligned_witness :
  exists results st',
    run scripted_Call ex_sv false (OpCreate ex_three)
        (init (mkScript [inr [ex_succeeded; ex_succeeded]; inr [ex_succeeded]] []) ∅)
    = Some ((Some results, None), st')
    /\ length results = 3
    /\ forall i o, ex_three !! i = Some o ->
         exists r, results !! i = Some r /\ op_Success r = true.
Proof.
  destruct (C5_outcomes_aligned scripted_Call ex_sv false (OpCreate ex_three)
              (mkScript [inr [ex_succeeded; ex_succeeded]; inr [ex_succeeded]] []) ∅
              (fun _ r => op_Success r = true))
    as (ret & st' & Hrun & H).
  pose proof Hrun as E. vm_compute in E. injection E as Eret Est.
  destruct H as (results & Hres & Hlen & Hall).
  - rewrite <- Eret. reflexivity.
  - intros k rq res Hk. rewrite <- Est in Hk.
    destruct k as [|[|k]]; simpl in Hk; [| |done];
      injection Hk as _ <-; repeat constructor.
  - exists results, st'. split; [|split; [exact Hlen|exact Hall]].
    rewrite Hrun. destruct ret as [agg err]. simpl in Hres. subst agg.
    injection Eret as _ <-. reflexivity.
Defined.

Lemma C9_tagged_copies_and_frame_witness :
  exists ret st',
    run scripted_Call ex_sv false (OpCreate [ex_contact "P00067f"; ex_recordmap])
        (init (mkScript [inr [ex_succeeded; ex_succeeded]] []) ex_heap)
    = Some (ret, st')
    /\ default ∅ (st_heap st' !! 1%positive) !! "Name" = Some (VString "Acme").
Proof.
  destruct (C9_tagged_copies_and_frame scripted_Call ex_sv false
              (OpCreate [ex_contact "P00067f"; ex_recordmap])
              (mkScript [inr [ex_succeeded; ex_succeeded]] []) ex_heap)
    as (ret & st' & Hrun & _ & Hframe).
  exists ret, st'. split; [exact Hrun|].
  destruct (Hframe 1%positive) as [_ Hkeys].
  etransitivity; [apply (Hkeys "Name"); discriminate|reflexivity].
Defined.

Lemma C6_row_cap_truncates_witness :
  query_loop ex_json_Unmarshal ex_query_server 1 ex_sv_capped ex_qsv_capped
    "query/?q=firstset" (mkQueryResponse 0 false "" PtrRS)
    (mkRecordSlice (Some [])) 0 []
  = Some {| q_err := None;
            q_results := ResultsSlice (take (Z.to_nat (maxrows ex_sv_capped))
                                         (seq 0 200));
            q_world := 1;
            q_calls := [] ++ [generateRequest ex_qsv_capped "GET" "query/?q=firstset" None] |}
  /\ length (take (Z.to_nat (maxrows ex_sv_capped)) (seq 0 200))
     = Z.to_nat (maxrows ex_sv_capped).
Proof.
  apply (C6_row_cap_truncates ex_json_Unmarshal ex_query_server 0
           ex_sv_capped ex_qsv_capped "query/?q=firstset"
           (mkQueryResponse 0 false "" PtrRS)
           (mkQueryResponse 460 false "/query/nextset/2" PtrRS)
           (mkRecordSlice (Some [])) 0 1 [] ex_page1 (seq 0 200)).
  - reflexivity.
  - reflexivity.
  - reflexivity.
  - reflexivity.
  - vm_compute. discriminate.
Defined.

Lemma C7_pages_append_witness :
  Query ex_json_Unmarshal ex_QueryEscape ex_query_server 3 New "firstset"
        (ResultsSlice []) 0
  = Some {| q_err := None;
            q_results := ResultsSlice (seq 0 200 ++ seq 200 200 ++ seq 400 60);
            q_world := 3;
            q_calls := [generateRequest ex_qsv "GET" "query/?q=firstset" None;
                        generateRequest ex_qsv "GET" "/query/nextset/2" None;
                        generateRequest ex_qsv "GET" "/query/nextset/3" None] |}
  /\ length (seq 0 200 ++ seq 200 200 ++ seq 400 60) = 460.
Proof.
  apply (proj2 (C7_pages_append ex_json_Unmarshal ex_QueryEscape ex_query_server)
           New "firstset" 0 1 2 3 ex_page1 ex_page2 ex_page3
           "page1" "page2" "page3" (seq 0 200) (seq 200 200) (seq 400 60)
           "/query/nextset/2" "/query/nextset/3" 3);
    try reflexivity; try discriminate.
Defined.

(** * Further properties of the code *)

(** ** Batch size configuration *)

(** The effective batch size of a write service lies in [1, 200] and
    that of a query service in [200, 2000], whatever [batchSize] holds. *)
Theorem MaxBatchSize_in_bounds {W} (sv : Service W) :
  if isqry sv then (200 <= MaxBatchSize sv <= 2000)%Z
  else (1 <= MaxBatchSize sv <= 200)%Z.
Proof.
  destruct (isqry sv) eqn:Hq.
  - by apply MaxBatchSize_query.
  - by apply MaxBatchSize_write.
Qed.

(** [WithBatchSize] followed by [MaxBatchSize]: a size that is zero,
    negative or above the maximum gives the maximum, a size below the
    minimum gives the minimum, any other size is kept; the size set
    before plays no part. *)
Theorem MaxBatchSize_WithBatchSize {W} (sv : Service W) (batchSz : Z) :
  MaxBatchSize (WithBatchSize sv batchSz)
  = if isqry sv
    then (if (batchSz <=? 0)%Z || (2000 <? batchSz)%Z then 2000
          else if (batchSz <? 200)%Z then 200 else batchSz)%Z
    else (if (batchSz <=? 0)%Z || (200 <? batchSz)%Z then 200 else batchSz)%Z.
Proof.
  unfold MaxBatchSize, WithBatchSize. simpl.
  destruct (isqry sv); simpl;
    destruct (batchSz <? 0)%Z eqn:E0; simpl;
    repeat match goal with
           | |- context [(?a <=? ?b)%Z] => destruct (a <=? b)%Z eqn:?
           | |- context [(?a <? ?b)%Z] => destruct (a <? b)%Z eqn:?
           | |- context [(?a =? ?b)%Z] => destruct (a =? b)%Z eqn:?
           end; simpl; try reflexivity; lia.
Qed.

(** ** How a collection call ends, and what the hook sees *)

Section RunEnds.

Context {A : Type}.
Variable items : list A.
Variable batchSz : nat.
Variable request_of : list A -> Request.
Variable view_of : list A -> list SObject.
Variable hooked : bool.
Variable on_hook_error : list OpResponse -> option (list OpResponse).

Local Abbreviation Run := (Run items batchSz request_of view_of hooked on_hook_error).

Lemma outcomes_cons_inr rq res (cs : list CallEvent) :
  outcomes ((rq, inr res) :: cs) = res ++ outcomes cs.
Proof. reflexivity. Qed.

Lemma Run_classify i opResp cs ls ret :
  Run i opResp cs ls ret ->
  ret = (Some (opResp ++ outcomes cs), None)
  \/ (exists rq e, last cs = Some (rq, inl e)
                   /\ ret = (Some (opResp ++ outcomes cs), Some e))
  \/ (exists ev e, last ls = Some ev /\ lg_err ev = Some e
                   /\ ret = (on_hook_error (opResp ++ outcomes cs), Some e)).
Proof.
  induction 1 as [i o Hi|i o err Hi|i o res err Hi Hh|i o res cs ls ret Hi Hh HR IH
                 |i o res cs ls ret Hi Hh HR IH].
  - left. by rewrite app_nil_r.
  - right. left. exists (request_of (chunk items batchSz i)), err.
    split; [done|]. unfold outcomes. simpl. by rewrite app_nil_r.
  - right. right. eexists _, err. split; [done|]. split; [done|].
    unfold outcomes. simpl. by rewrite app_nil_r.
  - rewrite outcomes_cons_inr, app_assoc.
    destruct IH as [->|[(rq & e & Hl & ->)|(ev & e & Hl & He & ->)]].
    + by left.
    + right. left. exists rq, e. split; [|done]. by rewrite last_cons, Hl.
    + right. right. exists ev, e. split; [|done]. by rewrite last_cons, Hl.
  - rewrite outcomes_cons_inr, app_assoc.
    destruct IH as [->|[(rq & e & Hl & ->)|(ev & e & Hl & He & ->)]].
    + by left.
    + right. left. exists rq, e. split; [|done]. by rewrite last_cons, Hl.
    + right. right. exists ev, e. done.
Qed.

(** With a hook configured, every Transport call that succeeded is
    followed by a hook call on its outcomes. *)
Lemma Run_calls_logged i opResp cs ls ret :
  Run i opResp cs ls ret -> hooked = true ->
  forall k rq res, cs !! k = Some (rq, inr res) ->
    exists ev, ls !! k = Some ev /\ lg_res ev = res.
Proof.
  induction 1 as [i o Hi|i o err Hi|i o res err Hi Hh|i o res cs ls ret Hi Hh HR IH
                 |i o res cs ls ret Hi Hh HR IH]; intros Hhk k rq res' Hk.
  - done.
  - destruct k; simplify_eq/=.
  - destruct k; simplify_eq/=. eauto.
  - destruct k as [|k]; simplify_eq/=; eauto.
  - congruence.
Qed.

End RunEnds.

(** The ways a collection call ends.  It returns, and then one of four
    holds: the input was empty, nothing was sent and the error is
    [ErrZeroRecords] with a nil aggregate; or there is no error, every
    Transport call and every hook call made succeeded, and the aggregate
    is the concatenation of all outcomes received; or the last Transport
    call failed and its error is returned with the outcomes received
    before it; or the last hook call failed and its error is returned,
    by create, update and upsert with all outcomes received and by
    delete with a nil aggregate.  No other error is ever returned. *)
Theorem run_ends_in_one_of_four_ways {W}
    (Call_OpResponses : W -> Heap -> Request -> W * (goerror + list OpResponse))
    (sv : Service W) (allOrNone : bool) (op : Op) (w : W) (h : Heap) :
  exists ret st',
    run Call_OpResponses sv allOrNone op (init w h) = Some (ret, st')
    /\ ((op_entities op = [] /\ ret = (None, Some ErrZeroRecords)
         /\ st_calls st' = [] /\ st_logs st' = [])
        \/ (op_entities op <> []
            /\ ret = (Some (outcomes (st_calls st')), None)
            /\ (forall k ev, st_calls st' !! k = Some ev -> exists res, snd ev = inr res)
            /\ Forall (fun ev => lg_err ev = None) (st_logs st'))
        \/ (exists rq e,
              last (st_calls st') = Some (rq, inl e)
              /\ ret = (Some (outcomes (st_calls st')), Some e))
        \/ (exists ev e,
              last (st_logs st') = Some ev /\ lg_err ev = Some e
              /\ ret = (match op with
                        | OpDelete _ => None
                        | _ => Some (outcomes (st_calls st'))
                        end, Some e))).
Proof.
  destruct (decide (op_entities op = [])) as [Hnil|Hne].
  - eexists _, _. split; [by apply run_empty|]. left. done.
  - destruct (run_Run Call_OpResponses sv allOrNone op w h Hne)
      as (ret & st' & Hrun & HRun).
    exists ret, st'. split; [done|]. right.
    assert (Hcases :
      forall A (items : list A) rq vw ohe,
        Run items (Z.to_nat (MaxBatchSize sv)) rq vw (hooked_of sv) ohe 0 []
            (st_calls st') (st_logs st') ret ->
        (ret = (Some (outcomes (st_calls st')), None)
         /\ (forall k ev, st_calls st' !! k = Some ev -> exists res, snd ev = inr res)
         /\ Forall (fun ev => lg_err ev = None) (st_logs st'))
        \/ (exists rq e, last (st_calls st') = Some (rq, inl e)
                         /\ ret = (Some (outcomes (st_calls st')), Some e))
        \/ (exists ev e, last (st_logs st') = Some ev /\ lg_err ev = Some e
                         /\ ret = (ohe (outcomes (st_calls st')), Some e))).
    { intros A items rq vw ohe HR.
      destruct (Run_classify _ _ _ _ _ _ _ _ _ _ _ HR) as [Hok|[Hc|Hl]].
      - left. split; [done|].
        destruct (Run_completed _ _ _ _ _ _ _ _ _ _ _ HR) as (_ & _ & H3 & H4 & _);
          [by rewrite Hok|]. done.
      - right. by left.
      - right. by right. }
    destruct op as [recs|recs|f recs|ids]; simpl in HRun;
      destruct (Hcases _ _ _ _ _ HRun) as [(H1 & H2 & H3)|[Hc|Hl]]; eauto 10.
Qed.

(** The hook protocol.  Without a hook no hook call is made.  With one,
    the [k]-th hook call follows the [k]-th Transport call, which
    succeeded, and is handed that call's outcomes and the offset
    [k * B]; and every Transport call that succeeded is followed by its
    hook call. *)
Theorem hook_called_once_per_successful_batch {W}
    (Call_OpResponses : W -> Heap -> Request -> W * (goerror + list OpResponse))
    (sv : Service W) (allOrNone : bool) (op : Op) (w : W) (h : Heap) :
  exists ret st',
    run Call_OpResponses sv allOrNone op (init w h) = Some (ret, st')
    /\ (logger sv = None -> st_logs st' = [])
    /\ (forall k ev,
          st_logs st' !! k = Some ev ->
          lg_offset ev = k * Z.to_nat (MaxBatchSize sv)
          /\ exists rq, st_calls st' !! k = Some (rq, inr (lg_res ev)))
    /\ (logger sv <> None ->
        forall k rq res,
          st_calls st' !! k = Some (rq, inr res) ->
          exists ev, st_logs st' !! k = Some ev /\ lg_res ev = res).
Proof.
  destruct (decide (op_entities op = [])) as [Hnil|Hne].
  - eexists _, _. split; [by apply run_empty|]. done.
  - destruct (run_Run Call_OpResponses sv allOrNone op w h Hne)
      as (ret & st' & Hrun & HRun).
    exists ret, st'. split; [done|].
    assert (Hh : logger sv <> None -> hooked_of sv = true).
    { unfold hooked_of. by destruct (logger sv). }
    assert (Hn : logger sv = None -> hooked_of sv = false).
    { unfold hooked_of. by intros ->. }
    destruct op as [recs|recs|f recs|ids]; simpl in HRun;
      (split; [intros Hl; eapply Run_unhooked; [exact HRun|by apply Hn]|];
       split; [intros k ev Hk;
               destruct (Run_logs _ _ _ _ _ _ _ _ _ _ _ HRun k ev Hk)
                 as (H1 & _ & H3); eauto
              |intros Hl k rq res Hk;
               eapply Run_calls_logged; [exact HRun|by apply Hh|exact Hk]]).
Qed.

(** ** The requests of a collection call *)




(** What every request of a collection call looks like.  All requests
    of one call use one method and, for create, update and upsert, one
    path: POST or PATCH to composite/sobjects, and for upsert PATCH to
    composite/sobjects/<name>/<field> where <name> is the object name of
    the first entity as it was when the call began.  Their bodies carry
    the caller's all-or-none flag.  Delete requests have no body, so the
    flag given to [DeleteRecords] reaches no request: the call does the
    same for either value. *)
Theorem requests_method_path_and_flag {W}
    (Call_OpResponses : W -> Heap -> Request -> W * (goerror + list OpResponse))
    (sv : Service W) (allOrNone : bool) (op : Op) (w : W) (h : Heap) :
  (exists ret st',
     run Call_OpResponses sv allOrNone op (init w h) = Some (ret, st')
     /\ forall k rq r,
          st_calls st' !! k = Some (rq, r) ->
          rq_method rq = op_method op
          /\ match op with
             | OpDelete _ => rq_body rq = None
             | _ =>
                 rq_path rq = op_path h op
                 /\ exists body, rq_body rq = Some body /\ AllOrNone body = allOrNone
             end)
  /\ (forall ids st,
        DeleteRecords Call_OpResponses sv allOrNone ids st
        = DeleteRecords Call_OpResponses sv (negb allOrNone) ids st).
Proof.
  split; [|done].
  destruct (decide (op_entities op = [])) as [Hnil|Hne].
  - eexists _, _. split; [by apply run_empty|]. done.
  - destruct (run_Run Call_OpResponses sv allOrNone op w h Hne)
      as (ret & st' & Hrun & HRun).
    exists ret, st'. split; [done|]. intros k rq r Hk.
    destruct op as [recs|recs|f recs|ids]; simpl in HRun;
      destruct (Run_requests _ _ _ _ _ _ _ _ _ _ _ HRun k _ Hk) as [_ Hrq];
      simpl in Hrq; subst rq; simpl; eauto.
Qed.

(** ** [WithAttr] and object names *)

Lemma name_after_tag (m : gmap string AnyVal) ref :
  RecordMap_SObjectName
    (Some (<["attributes" :=
              VAttributesPtr (mkAttributes (RecordMap_SObjectName (Some m)) "" ref)]> m))
  = RecordMap_SObjectName (Some m).
Proof. unfold RecordMap_SObjectName at 1. by rewrite lookup_insert_eq. Qed.

Lemma WithAttr_name_at ref o h l :
  name_at (snd (WithAttr ref o h)) l = name_at h l.
Proof.
  destruct o as [s|[l0|]|id]; simpl; try done.
  unfold name_at. destruct (decide (l0 = l)) as [->|Hne].
  - rewrite lookup_insert_eq. simpl. apply name_after_tag.
  - by rewrite lookup_insert_ne.
Qed.

(** [WithAttr] changes no object name, neither that of the entity it
    returns nor that of any other entity, and doing it twice is the same
    as doing it once: the entity returned and the caller's maps are
    those of the first call. *)
Theorem WithAttr_keeps_names_and_is_idempotent (ref : string) (o : SObject) (h : Heap) :
  (forall o2, SObjectName (snd (WithAttr ref o h)) o2 = SObjectName h o2)
  /\ SObjectName (snd (WithAttr ref o h)) (fst (WithAttr ref o h)) = SObjectName h o
  /\ WithAttr ref (fst (WithAttr ref o h)) (snd (WithAttr ref o h)) = WithAttr ref o h.
Proof.
  assert (Hall : forall o2, SObjectName (snd (WithAttr ref o h)) o2 = SObjectName h o2).
  { intros [s|[l|]|id]; simpl; try done. apply (WithAttr_name_at ref o h l). }
  split; [done|]. split.
  - rewrite Hall. by destruct o as [s|[l|]|id].
  - destruct o as [s|[l|]|id]; try done.
    unfold WithAttr. cbn [fst snd].
    rewrite lookup_insert_eq. cbn [default from_option id].
    rewrite name_after_tag. by rewrite !insert_insert_eq.
Qed.

(** ** Maps submitted to a call that completes *)

Lemma WithAttr_names_kept h0 r h :
  names_kept h0 h -> names_kept h0 (snd (WithAttr "" r h)).
Proof. intros Hn l. by rewrite WithAttr_name_at. Qed.

Lemma WithAttr_tagged_kept h0 r h l :
  names_kept h0 h -> tagged h0 h l -> tagged h0 (snd (WithAttr "" r h)) l.
Proof.
  intros Hn Ht. destruct r as [s|[l0|]|id]; simpl; try done.
  unfold tagged. destruct (decide (l0 = l)) as [->|Hne].
  - rewrite lookup_insert_eq. simpl. rewrite lookup_insert_eq.
    do 3 f_equal. apply (Hn l).
  - by rewrite lookup_insert_ne.
Qed.

Lemma WithAttr_tags h0 h l :
  names_kept h0 h -> tagged h0 (snd (WithAttr "" (SRecordMap (Some l)) h)) l.
Proof.
  intros Hn. unfold tagged. simpl. rewrite lookup_insert_eq. simpl.
  rewrite lookup_insert_eq. do 3 f_equal. apply (Hn l).
Qed.

Lemma WithAttr_range_tags h0 rs h :
  names_kept h0 h ->
  names_kept h0 (snd (WithAttr_range rs h))
  /\ (forall l, tagged h0 h l -> tagged h0 (snd (WithAttr_range rs h)) l)
  /\ (forall l, SRecordMap (Some l) ∈ rs -> tagged h0 (snd (WithAttr_range rs h)) l).
Proof.
  revert h. induction rs as [|r rs IH]; intros h Hn; simpl.
  - repeat split; [done|done|]. intros l Hl. by apply not_elem_of_nil in Hl.
  - pose proof (WithAttr_names_kept h0 r h Hn) as Hn1.
    pose proof (fun l => WithAttr_tagged_kept h0 r h l Hn) as Hk1.
    pose proof (fun l => WithAttr_tags h0 h l Hn) as Ht1.
    destruct (WithAttr "" r h) as [c h1] eqn:Hw. simpl in *.
    destruct (IH h1 Hn1) as (Hn2 & Hk2 & Ht2).
    destruct (WithAttr_range rs h1) as [cs h2]. simpl in *.
    repeat split; [done|by auto|].
    intros l Hl. apply elem_of_cons in Hl. destruct Hl as [<-|Hl]; [|by auto].
    apply Hk2. specialize (Ht1 l). simpl in Hw. by simplify_eq.
Qed.

Lemma CompositeCall_loop_tags {W}
    (Call_OpResponses : W -> Heap -> Request -> W * (goerror + list OpResponse))
    h0 fuel (sv : Service W) allOrNone path method recs batchSz i opResp st ret st' :
  CompositeCall_loop Call_OpResponses fuel sv allOrNone path method recs
    batchSz i opResp st = Some (ret, st') ->
  names_kept h0 (st_heap st) ->
  (forall l, SRecordMap (Some l) ∈ take i recs -> tagged h0 (st_heap st) l) ->
  names_kept h0 (st_heap st')
  /\ (snd ret = None ->
      forall l, SRecordMap (Some l) ∈ recs -> tagged h0 (st_heap st') l).
Proof.
  revert i opResp st.
  induction fuel as [|fuel IH]; intros i opResp st; simpl.
  - case_decide as Hi; [done|]. intros ? Hn Ht; simplify_eq. split; [done|].
    intros _ l Hl. apply Ht. by rewrite take_ge by lia.
  - case_decide as Hi.
    2:{ intros ? Hn Ht; simplify_eq. split; [done|].
        intros _ l Hl. apply Ht. by rewrite take_ge by lia. }
    rewrite slice_chunk. intros Hrun Hn Ht.
    destruct (WithAttr_range_tags h0 (take batchSz (drop i recs)) (st_heap st) Hn)
      as (Hn1 & Hk1 & Ht1).
    destruct (WithAttr_range _ _) as [cmdRecs h1]. simpl in *.
    assert (Ht' : forall l, SRecordMap (Some l) ∈ take (i + batchSz) recs ->
                            tagged h0 h1 l).
    { intros l Hl. rewrite <- take_take_drop in Hl.
      apply elem_of_app in Hl. destruct Hl as [Hl|Hl]; auto. }
    unfold do_Call in Hrun. simpl in Hrun.
    destruct (Call_OpResponses _ _ _) as [w1 [err|res]].
    + simplify_eq. by split.
    + destruct (logger sv) as [lg|].
      * unfold do_log in Hrun. simpl in Hrun.
        destruct (lg w1 i cmdRecs res) as [w2 [err|]].
        -- simplify_eq. by split.
        -- by apply IH in Hrun.
      * by apply IH in Hrun.
Qed.

(** After create, update or upsert returns without an error, every map
    that was submitted as an entity holds under ["attributes"] a pointer
    to the block with the object name the map had before the call and an
    empty reference.  On every return path, and for delete as well, the
    object name of every map is what it was before the call. *)
Theorem submitted_maps_are_tagged {W}
    (Call_OpResponses : W -> Heap -> Request -> W * (goerror + list OpResponse))
    (sv : Service W) (allOrNone : bool) (op : Op) (w : W) (h : Heap) :
  exists ret st',
    run Call_OpResponses sv allOrNone op (init w h) = Some (ret, st')
    /\ (forall m, SObjectName (st_heap st') (SRecordMap m) = SObjectName h (SRecordMap m))
    /\ (snd ret = None ->
        forall l, SRecordMap (Some l) ∈ op_entities op ->
          default ∅ (st_heap st' !! l) !! "attributes"
          = Some (VAttributesPtr
                    (mkAttributes (SObjectName h (SRecordMap (Some l))) "" ""))).
Proof.
  destruct (run_returns Call_OpResponses sv allOrNone op w h) as (ret & st' & Hrun).
  exists ret, st'. split; [done|].
  assert (Hmain : names_kept h (st_heap st')
                  /\ (snd ret = None -> forall l,
                        SRecordMap (Some l) ∈ op_entities op -> tagged h (st_heap st') l)).
  { assert (Hcomp : forall path method recs,
      CompositeCall Call_OpResponses sv allOrNone path method recs (init w h)
        = Some (ret, st') ->
      names_kept h (st_heap st')
      /\ (snd ret = None -> forall l,
            SRecordMap (Some l) ∈ recs -> tagged h (st_heap st') l)).
    { intros path method recs. unfold CompositeCall. case_decide.
      - intros ?; simplify_eq. split; [done|]. done.
      - intros Hl. eapply CompositeCall_loop_tags; [exact Hl|done|].
        intros l Hl'. by apply not_elem_of_nil in Hl'. }
    destruct op as [recs|recs|f recs|ids]; simpl in Hrun |- *.
    - by eapply Hcomp.
    - by eapply Hcomp.
    - unfold UpsertRecords in Hrun. destruct recs as [|r0 recs].
      + simplify_eq. split; done.
      + by eapply Hcomp.
    - pose proof (run_tagged_in_place Call_OpResponses sv allOrNone (OpDelete ids)
                    w h ret st' Hrun) as Hfr.
      split.
      + intros l. unfold name_at. destruct (Hfr l) as [Hsame _].
        rewrite Hsame; [done|]. simpl. intros Hin.
        apply list_elem_of_fmap in Hin. by destruct Hin as (? & ? & ?).
      + intros _ l Hin. simpl in Hin.
        apply list_elem_of_fmap in Hin. by destruct Hin as (? & ? & ?). }
  destruct Hmain as [Hn Ht]. split.
  - intros [l|]; simpl; [apply (Hn l)|done].
  - intros Hret l Hl. apply (Ht Hret l Hl).
Qed.

(** ** More on [Errors] *)

Lemma annotate_idem startIndex sobjects i o :
  annotate startIndex sobjects i (annotate startIndex sobjects i o)
  = annotate startIndex sobjects i o.
Proof.
  unfold annotate. destruct (op_Success o) eqn:Hs; [by rewrite Hs|].
  destruct (sobjects !! i) as [so|]; simpl; by rewrite ?Hs.
Qed.

(** Calling [Errors] again on the slice it has already been called on,
    with the same arguments, returns the same list and leaves the slice
    as the first call left it. *)
Theorem Errors_idempotent (oprs : list OpResponse) (startIndex : Z)
    (sobjects : list SObject) :
  Errors (fst (Errors oprs startIndex sobjects)) startIndex sobjects
  = Errors oprs startIndex sobjects.
Proof.
  rewrite !Errors_spec. simpl.
  assert (E : imap (annotate startIndex sobjects)
                (imap (annotate startIndex sobjects) oprs)
              = imap (annotate startIndex sobjects) oprs).
  { apply list_eq. intros i. rewrite !list_lookup_imap.
    destruct (oprs !! i); simpl; [|done]. by rewrite annotate_idem. }
  by rewrite E.
Qed.

(** [Errors] never touches the id, the success flag, the error entries
    or the created flag of an outcome; it returns as many outcomes as
    the receiver has failures; and when every outcome succeeded it
    returns nothing and leaves the receiver as it was. *)
Theorem Errors_keeps_outcome_fields (oprs : list OpResponse) (startIndex : Z)
    (sobjects : list SObject) :
  map (fun o => (op_ID o, op_Success o, op_Errors o, op_Created o))
      (fst (Errors oprs startIndex sobjects))
  = map (fun o => (op_ID o, op_Success o, op_Errors o, op_Created o)) oprs
  /\ length (snd (Errors oprs startIndex sobjects))
     = length (filter (fun o => op_Success o = false) oprs)
  /\ (Forall (fun o => op_Success o = true) oprs ->
      Errors oprs startIndex sobjects = (oprs, [])).
Proof.
  rewrite Errors_spec. simpl.
  assert (Hf : forall o i,
    (fun o => (op_ID o, op_Success o, op_Errors o, op_Created o))
      (annotate startIndex sobjects i o)
    = (op_ID o, op_Success o, op_Errors o, op_Created o)).
  { intros o i. unfold annotate. destruct (op_Success o) eqn:Hs; simpl;
      [by rewrite Hs|].
    destruct (sobjects !! i); simpl; by rewrite ?Hs. }
  split; [|split].
  - apply list_eq. intros i.
    change (map ?f ?l) with (f <$> l).
    rewrite !list_lookup_fmap, list_lookup_imap.
    destruct (oprs !! i); simpl; [|done]. by rewrite (Hf o i).
  - assert (Hgen : forall (l : list OpResponse) (g : nat -> nat),
      length (filter (fun o => op_Success o = false)
                (imap (fun i => annotate startIndex sobjects (g i)) l))
      = length (filter (fun o => op_Success o = false) l)).
    { induction l as [|o l IH]; intros g; [done|].
      rewrite imap_cons.
      destruct (op_Success o) eqn:Hs.
      - rewrite !filter_cons_False; rewrite ?annotate_Success; try congruence.
        apply (IH (g ∘ S)).
      - rewrite !filter_cons_True; rewrite ?annotate_Success; try done.
        simpl. f_equal. apply (IH (g ∘ S)). }
    exact (Hgen oprs (fun i => i)).
  - intros Hall.
    assert (E : imap (annotate startIndex sobjects) oprs = oprs).
    { apply list_eq. intros i. rewrite list_lookup_imap.
      destruct (oprs !! i) as [o|] eqn:Ho; simpl; [|done].
      unfold annotate. by rewrite (proj1 (Forall_lookup _ _) Hall i o Ho). }
    rewrite E. f_equal. clear E.
    induction Hall as [|o l Ho Hl IH]; [done|].
    by rewrite filter_cons_False by congruence.
Qed.

Lemma elem_of_imap_pair {A} (l : list A) (i : nat) (x : A) :
  (i, x) ∈ imap pair l -> l !! i = Some x.
Proof.
  intros Hin. apply elem_of_lookup_imap in Hin.
  destruct Hin as (j & y & Heq & Hj). by simplify_eq.
Qed.

Lemma Errors_returned (oprs : list OpResponse) (startIndex : Z)
    (sobjects : list SObject) :
  snd (Errors oprs startIndex sobjects)
  = map (fun p => annotate startIndex sobjects (fst p) (snd p))
        (filter (fun p => op_Success (snd p) = false) (imap pair oprs)).
Proof.
  rewrite Errors_spec. simpl.
  exact (filter_annotate_indexed startIndex sobjects oprs 0).
Qed.

(** When there is a source entity for every outcome and the indexes fit
    in an [int], the list [Errors] returns gives, for the failures of
    the receiver in order, the position [i + startIndex] and the entity
    [sobjects[i]] of each. *)
Theorem Errors_with_a_source_for_every_outcome (oprs : list OpResponse)
    (startIndex : Z) (sobjects : list SObject) :
  length oprs <= length sobjects ->
  (0 <= startIndex)%Z ->
  (startIndex + Z.of_nat (length oprs) <= 2 ^ 63)%Z ->
  map (fun o => (op_RecordIndex o, op_SObject o))
      (snd (Errors oprs startIndex sobjects))
  = map (fun p : nat * OpResponse => ((Z.of_nat (fst p) + startIndex)%Z, sobjects !! fst p))
        (filter (fun p => op_Success (snd p) = false) (imap pair oprs)).
Proof.
  intros Hlen H0 Hmax. rewrite Errors_returned, map_map.
  apply map_ext_in. intros [i o] Hin.
  apply list_elem_of_In, list_elem_of_filter in Hin. destruct Hin as [Hs Hin].
  apply elem_of_imap_pair in Hin. simpl in *.
  pose proof (lookup_lt_Some _ _ _ Hin) as Hi.
  destruct (lookup_lt_is_Some_2 sobjects i ltac:(lia)) as [so Hso].
  unfold annotate. rewrite Hs, Hso. simpl.
  rewrite int_wrap_id by lia. done.
Qed.

Lemma Errors_with_a_source_for_every_outcome_witness :
  map (fun o => (op_RecordIndex o, op_SObject o))
      (snd (Errors [ex_succeeded; ex_failed] 100 [SDeleteID "a"; SDeleteID "b"]))
  = map (fun p : nat * OpResponse =>
           ((Z.of_nat (fst p) + 100)%Z, [SDeleteID "a"; SDeleteID "b"] !! fst p))
        (filter (fun p => op_Success (snd p) = false)
                (imap pair [ex_succeeded; ex_failed])).
Proof.
  apply (Errors_with_a_source_for_every_outcome [ex_succeeded; ex_failed] 100
           [SDeleteID "a"; SDeleteID "b"]); simpl; lia.
Defined.

(** ** [Errors] on the aggregate of a completed call *)

(** Filtering the failures of a call that completed.  When an operation
    returns no error and each Transport call answered with as many
    outcomes as its batch had entities, [Errors(0, entities)] on the
    aggregate gives, for its failures in order, the index of the entity
    each failure belongs to and that entity. *)
Theorem failures_of_a_completed_call {W}
    (Call_OpResponses : W -> Heap -> Request -> W * (goerror + list OpResponse))
    (sv : Service W) (allOrNone : bool) (op : Op) (w : W) (h : Heap) :
  (Z.of_nat (length (op_entities op)) <= 2 ^ 63)%Z ->
  exists ret st',
    run Call_OpResponses sv allOrNone op (init w h) = Some (ret, st')
    /\ (snd ret = None ->
        (forall k rq res,
           st_calls st' !! k = Some (rq, inr res) ->
           length res
           = length (take (Z.to_nat (MaxBatchSize sv))
                       (drop (k * Z.to_nat (MaxBatchSize sv)) (op_entities op)))) ->
        exists results,
          fst ret = Some results
          /\ length results = length (op_entities op)
          /\ map (fun o => (op_RecordIndex o, op_SObject o))
                 (snd (Errors results 0 (op_entities op)))
             = map (fun p : nat * OpResponse => (Z.of_nat (fst p), op_entities op !! fst p))
                   (filter (fun p => op_Success (snd p) = false) (imap pair results))).
Proof.
  intros Hmax.
  destruct (decide (op_entities op = [])) as [Hnil|Hne].
  - eexists _, _. split; [by apply run_empty|]. done.
  - destruct (run_Run Call_OpResponses sv allOrNone op w h Hne)
      as (ret & st' & Hrun & HRun).
    exists ret, st'. split; [done|]. intros Hret Hcalls.
    assert (Hall : exists out, fst ret = Some out
                               /\ length out = length (op_entities op)).
    { assert (Hgen : forall A (items : list A) rq vw ohe,
        Run items (Z.to_nat (MaxBatchSize sv)) rq vw (hooked_of sv) ohe 0 []
            (st_calls st') (st_logs st') ret ->
        length items = length (op_entities op) ->
        (forall n, length (take (Z.to_nat (MaxBatchSize sv)) (drop n items))
                   = length (take (Z.to_nat (MaxBatchSize sv))
                               (drop n (op_entities op)))) ->
        exists out, fst ret = Some out /\ length out = length (op_entities op)).
      { intros A items rq vw ohe HR Hlen Hch.
        destruct (Run_aligned items _ _ _ _ _ (fun _ _ => True) _ _ _ _ _ HR Hret)
          as (out & Hout & HF).
        - intros k rq' res Hk. apply Forall2_true; [done|].
          rewrite (Hcalls k rq' res Hk). simpl. by rewrite Hch.
        - constructor.
        - exists out. split; [done|].
          apply Forall2_length in HF. lia. }
      destruct op as [recs|recs|f recs|ids]; simpl in HRun |- *;
        try (by eapply Hgen; [exact HRun|done|done]).
      eapply Hgen; [exact HRun|exact (eq_sym (length_fmap SDeleteID ids))|].
      intros n. change (op_entities (OpDelete ids)) with (SDeleteID <$> ids).
      by rewrite <- fmap_drop, <- fmap_take, length_fmap. }
    destruct Hall as (out & Hout & Hlen). exists out. split; [done|].
    split; [done|].
    rewrite Errors_returned, map_map.
    apply map_ext_in. intros [i o] Hin.
    apply list_elem_of_In, list_elem_of_filter in Hin. destruct Hin as [Hs Hin].
    apply elem_of_imap_pair in Hin. simpl in *.
    pose proof (lookup_lt_Some _ _ _ Hin) as Hi.
    destruct (lookup_lt_is_Some_2 (op_entities op) i ltac:(lia)) as [so Hso].
    unfold annotate. rewrite Hs, Hso. simpl.
    rewrite int_wrap_id by lia. f_equal. lia.
Qed.

Lemma failures_of_a_completed_call_witness :
  exists results st',
    run echo_Call (WithBatchSize New 2) false (OpCreate ex_three) (init 0 ∅)
    = Some ((Some results, None), st')
    /\ map (fun o => (op_RecordIndex o, op_SObject o))
           (snd (Errors results 0 ex_three))
       = [(2%Z, Some (ex_contact "P0006ee"))].
Proof.
  destruct (failures_of_a_completed_call echo_Call (WithBatchSize New 2) false
              (OpCreate ex_three) 0 ∅)
    as (ret & st' & Hrun & H); [simpl; lia|].
  pose proof Hrun as E. vm_compute in E. injection E as Eret Est.
  destruct H as (results & Hres & Hlen & HE).
  - rewrite <- Eret. reflexivity.
  - intros k rq res Hk. rewrite <- Est in Hk.
    destruct k as [|[|k]]; simpl in Hk; [| |done]; injection Hk as _ <-; reflexivity.
  - exists results, st'.
    destruct ret as [agg err]. simpl in Hres. subst agg.
    injection Eret as Eres Eerr. split.
    + rewrite Hrun. by rewrite <- Eerr.
    + etransitivity; [exact HE|]. rewrite <- Eres. reflexivity.
Defined.

(** ** More on the query reader *)

Section QueryMore.

Context {W Row : Type}.
Variable json_Unmarshal : string -> goerror + list Row.
Variable QueryEscape : string -> string.
Variable Call_QueryResponse : W -> Request -> W * (goerror + Envelope).

Lemma query_loop_shape fuel (sv qsv : Service W) fmtQry (res : QueryResponse)
    (rs : RecordSlice Row) w calls out l :
  query_loop json_Unmarshal Call_QueryResponse fuel sv qsv fmtQry res rs w calls
    = Some out ->
  resultsVal rs = Some l ->
  exists new,
    q_results out = ResultsSlice (l ++ new)
    \/ ((0 < maxrows sv)%Z /\ q_err out = None
        /\ (maxrows sv <= Z.of_nat (length (l ++ new)))%Z
        /\ q_results out = ResultsSlice (take (Z.to_nat (maxrows sv)) (l ++ new))).
Proof.
  revert fmtQry res rs w calls l.
  induction fuel as [|fuel IH]; intros fmtQry res rs w calls l; simpl.
  - destruct (Done res); [|done]. intros ? Hl; simplify_eq/=.
    exists []. left. unfold results_of. by rewrite Hl, app_nil_r.
  - destruct (Done res).
    { intros ? Hl; simplify_eq/=.
      exists []. left. unfold results_of. by rewrite Hl, app_nil_r. }
    destruct (Call_QueryResponse _ _) as [w1 [err|env]].
    { intros ? Hl; simplify_eq/=.
      exists []. left. unfold results_of. by rewrite Hl, app_nil_r. }
    destruct (decode _ env res rs) as [err|[res1 rs1]] eqn:Hdec.
    { intros ? Hl; simplify_eq/=.
      exists []. left. unfold results_of. by rewrite Hl, app_nil_r. }
    intros Hrun Hl.
    destruct (decode_appends json_Unmarshal env res res1 rs rs1 l Hdec Hl)
      as (new & Hnew & _).
    destruct ((0 <? maxrows sv)%Z && (maxrows sv <=? Z.of_nat (rows rs1))%Z) eqn:Hc.
    + simplify_eq/=. exists new. right.
      unfold rows in Hc. rewrite Hnew in Hc. simpl in Hc.
      unfold results_of, slice_rs, slice. rewrite Hnew. simpl.
      rewrite Nat.sub_0_r, drop_0. repeat split; try done; lia.
    + destruct (IH _ _ _ _ _ _ Hrun Hnew) as (new' & Hcase).
      exists (new ++ new'). by rewrite app_assoc.
Qed.


(** A query with a row cap that returns no error leaves at most
    [maxrows] rows in the caller's slice. *)
Theorem capped_query_returns_at_most_maxrows (fuel : nat) (sv : Service W)
    (path qry : string) (results : Results Row) (w : W) (out : QueryOutcome W Row)
    (l : list Row) :
  query json_Unmarshal QueryEscape Call_QueryResponse fuel sv path qry results w
    = Some out ->
  (0 < maxrows sv)%Z ->
  q_err out = None ->
  q_results out = ResultsSlice l ->
  (Z.of_nat (length l) <= maxrows sv)%Z.
Proof.
  unfold query. destruct results as [| |l0]; simpl.
  - intros ?; simplify_eq/=. done.
  - intros ?; simplify_eq/=. done.
  - intros Hrun Hpos Herr Hres.
    eapply query_loop_cap_bound; [exact Hpos| |exact Hrun|exact Herr|exact Hres].
    done.
Qed.

Lemma query_loop_requests fuel (sv qsv : Service W) fmtQry (res : QueryResponse)
    (rs : RecordSlice Row) w calls out :
  query_loop json_Unmarshal Call_QueryResponse fuel sv qsv fmtQry res rs w calls
    = Some out ->
  exists more,
    q_calls out = calls ++ more
    /\ length more <= fuel
    /\ Forall (fun rq => exists p, rq = generateRequest qsv "GET" p None) more
    /\ (forall rq, head more = Some rq -> rq_path rq = fmtQry)
    /\ (Done res = false -> more <> []).
Proof.
  revert fmtQry res rs w calls.
  induction fuel as [|fuel IH]; intros fmtQry res rs w calls; simpl.
  - destruct (Done res); [|done]. intros ?; simplify_eq/=.
    exists []. rewrite app_nil_r. repeat split; done.
  - destruct (Done res) eqn:Hd.
    { intros ?; simplify_eq/=. exists []. rewrite app_nil_r.
      repeat split; try done. simpl. lia. }
    assert (Hone :
      exists more, calls ++ [generateRequest qsv "GET" fmtQry None] = calls ++ more
        /\ length more <= S fuel
        /\ Forall (fun rq => exists p, rq = generateRequest qsv "GET" p None) more
        /\ (forall rq, head more = Some rq -> rq_path rq = fmtQry)
        /\ (false = false -> more <> [])).
    { exists [generateRequest qsv "GET" fmtQry None].
      repeat split; [simpl; lia|by repeat econstructor| |done].
      intros rq Hrq. by simplify_eq/=. }
    destruct (Call_QueryResponse _ _) as [w1 [err|env]];
      [intros ?; simplify_eq/=; by apply Hone|].
    destruct (decode _ env res rs) as [err|[res1 rs1]];
      [intros ?; simplify_eq/=; by apply Hone|].
    destruct ((0 <? maxrows sv)%Z && (maxrows sv <=? Z.of_nat (rows rs1))%Z);
      [intros ?; simplify_eq/=; by apply Hone|].
    intros Hrun. destruct (IH _ _ _ _ _ Hrun) as (more & Hc & Hlen & Hall & _ & _).
    exists (generateRequest qsv "GET" fmtQry None :: more).
    rewrite Hc, <- app_assoc. repeat split; [simpl; lia| | |done].
    + constructor; [by eexists|done].
    + intros rq Hrq. by simplify_eq/=.
Qed.

(** The requests of a query.  Every request is a GET without a body
    that carries the query batch-size header with one and the same
    value, between 200 and 2000; the first goes to the given path
    followed by the escaped query text; a query that got as far as
    reading a slice pointer sends at least one request. *)
Theorem query_requests (fuel : nat) (sv : Service W) (path qry : string)
    (results : Results Row) (w : W) (out : QueryOutcome W Row) :
  query json_Unmarshal QueryEscape Call_QueryResponse fuel sv path qry results w
    = Some out ->
  exists b : Z,
    (200 <= b <= 2000)%Z
    /\ Forall (fun rq => rq_method rq = "GET" /\ rq_body rq = None
                         /\ rq_queryOptions rq = Some b) (q_calls out)
    /\ (forall rq, head (q_calls out) = Some rq ->
          rq_path rq = path +:+ QueryEscape qry)
    /\ (forall l0, results = ResultsSlice l0 -> q_calls out <> [])
    /\ length (q_calls out) <= fuel.
Proof.
  set (qsv := {| isqry := true; batchSize := batchSize sv;
                 maxrows := maxrows sv; logger := logger sv |}).
  intros Hq. exists (MaxBatchSize qsv).
  split; [by apply (MaxBatchSize_query qsv)|].
  unfold query in Hq. destruct results as [| |l0]; simpl in Hq.
  - simplify_eq/=. repeat split; try done. lia.
  - simplify_eq/=. repeat split; try done. lia.
  - destruct (query_loop_requests _ _ _ _ _ _ _ _ _ Hq)
      as (more & Hc & Hlen & Hall & Hhead & Hne).
    simpl in Hc. rewrite Hc. repeat split; [|done|by auto|done].
    eapply Forall_impl; [exact Hall|]. intros rq [p ->]. done.
Qed.

End QueryMore.


Lemma capped_query_returns_at_most_maxrows_witness :
  (Z.of_nat (length (seq 0 8)) <= maxrows ex_sv_capped)%Z.
Proof.
  apply (capped_query_returns_at_most_maxrows ex_json_Unmarshal ex_QueryEscape
           ex_query_server 1 ex_sv_capped "query/?q=" "firstset" (ResultsSlice []) 0
           _ (seq 0 8) eq_refl); [reflexivity|reflexivity|reflexivity].
Defined.

Lemma query_requests_witness :
  exists b : Z,
    (200 <= b <= 2000)%Z
    /\ Forall (fun rq => rq_method rq = "GET" /\ rq_body rq = None
                         /\ rq_queryOptions rq = Some b)
              [generateRequest ex_qsv "GET" "query/?q=firstset" None;
               generateRequest ex_qsv "GET" "/query/nextset/2" None;
               generateRequest ex_qsv "GET" "/query/nextset/3" None]
    /\ (forall rq,
          head [generateRequest ex_qsv "GET" "query/?q=firstset" None;
                generateRequest ex_qsv "GET" "/query/nextset/2" None;
                generateRequest ex_qsv "GET" "/query/nextset/3" None] = Some rq ->
          rq_path rq = "query/?q=" +:+ ex_QueryEscape "firstset")
    /\ (forall l0 : list nat, ResultsSlice [] = ResultsSlice l0 ->
          [generateRequest ex_qsv "GET" "query/?q=firstset" None;
           generateRequest ex_qsv "GET" "/query/nextset/2" None;
           generateRequest ex_qsv "GET" "/query/nextset/3" None] <> [])
    /\ length [generateRequest ex_qsv "GET" "query/?q=firstset" None;
               generateRequest ex_qsv "GET" "/query/nextset/2" None;
               generateRequest ex_qsv "GET" "/query/nextset/3" None] <= 3.
Proof.
  exact (query_requests ex_json_Unmarshal ex_QueryEscape ex_query_server 3 New
           "query/?q=" "firstset" (ResultsSlice []) 0 _ eq_refl).
Defined.

(** ** Partial aggregates *)

Section RunPartial.

Context {A : Type}.
Variable items : list A.
Variable batchSz : nat.
Variable request_of : list A -> Request.
Variable view_of : list A -> list SObject.
Variable hooked : bool.
Variable on_hook_error : list OpResponse -> option (list OpResponse).
Variable R : A -> OpResponse -> Prop.

Hypothesis on_hook_error_same :
  forall x y, on_hook_error x = Some y -> y = x.

Lemma Forall2_take_length (n : nat) (out : list OpResponse) :
  Forall2 R (take n items) out -> Forall2 R (take (length out) items) out.
Proof.
  intros HF. pose proof (Forall2_length _ _ _ HF) as Hlen.
  rewrite length_take in Hlen. rewrite <- Hlen.
  destruct (decide (n <= length items)) as [Hle|Hgt].
  - by rewrite Nat.min_l by lia.
  - rewrite Nat.min_r by lia. rewrite take_ge by lia.
    by rewrite take_ge in HF by lia.
Qed.

Lemma Run_partially_aligned i opResp cs ls ret :
  Run items batchSz request_of view_of hooked on_hook_error i opResp cs ls ret ->
  (forall k rq res, cs !! k = Some (rq, inr res) ->
     Forall2 R (take batchSz (drop (i + k * batchSz) items)) res) ->
  Forall2 R (take i items) opResp ->
  forall out, fst ret = Some out -> Forall2 R (take (length out) items) out.
Proof.
  induction 1 as [i o Hi|i o err Hi|i o res err Hi Hh|i o res cs ls ret Hi Hh HR IH
                 |i o res cs ls ret Hi Hh HR IH]; intros Hcs Hacc out Hout; simpl in *.
  - simplify_eq. by eapply Forall2_take_length.
  - simplify_eq. by eapply Forall2_take_length.
  - apply on_hook_error_same in Hout. subst out.
    apply (Forall2_take_length (i + batchSz)).
    rewrite <- take_take_drop. apply Forall2_app; [done|].
    specialize (Hcs 0 _ res eq_refl). by rewrite Nat.add_0_r in Hcs.
  - apply IH; [| |done].
    + intros k rq res' Hk.
      replace (i + batchSz + k * batchSz) with (i + S k * batchSz) by lia.
      exact (Hcs (S k) rq res' Hk).
    + rewrite <- take_take_drop. apply Forall2_app; [done|].
      specialize (Hcs 0 _ res eq_refl). by rewrite Nat.add_0_r in Hcs.
  - apply IH; [| |done].
    + intros k rq res' Hk.
      replace (i + batchSz + k * batchSz) with (i + S k * batchSz) by lia.
      exact (Hcs (S k) rq res' Hk).
    + rewrite <- take_take_drop. apply Forall2_app; [done|].
      specialize (Hcs 0 _ res eq_refl). by rewrite Nat.add_0_r in Hcs.
Qed.

End RunPartial.

(** A partial aggregate can be reconciled with the input.  On every
    return path, when each Transport call that succeeded answered its
    batch position by position ([R] relates an entity to the outcome
    given for it), an aggregate that is returned is aligned with the
    entities at the head of the input: its length tells how many
    entities were answered, and its [i]-th outcome is the one given for
    the [i]-th entity. *)
Theorem partial_aggregate_aligned_with_input_prefix {W}
    (Call_OpResponses : W -> Heap -> Request -> W * (goerror + list OpResponse))
    (sv : Service W) (allOrNone : bool) (op : Op) (w : W) (h : Heap)
    (R : SObject -> OpResponse -> Prop) :
  exists ret st',
    run Call_OpResponses sv allOrNone op (init w h) = Some (ret, st')
    /\ ((forall k rq res,
           st_calls st' !! k = Some (rq, inr res) ->
           Forall2 R (take (Z.to_nat (MaxBatchSize sv))
                        (drop (k * Z.to_nat (MaxBatchSize sv)) (op_entities op)))
                   res) ->
        forall results,
          fst ret = Some results ->
          length results <= length (op_entities op)
          /\ Forall2 R (take (length results) (op_entities op)) results).
Proof.
  destruct (decide (op_entities op = [])) as [Hnil|Hne].
  - eexists _, _. split; [by apply run_empty|]. done.
  - destruct (run_Run Call_OpResponses sv allOrNone op w h Hne)
      as (ret & st' & Hrun & HRun).
    exists ret, st'. split; [done|]. intros Hcalls results Hres.
    assert (HF : Forall2 R (take (length results) (op_entities op)) results).
    { destruct op as [recs|recs|f recs|ids]; simpl in HRun, Hcalls |- *;
        try (eapply Run_partially_aligned;
             [|exact HRun|exact Hcalls|constructor|exact Hres];
             intros x y Hxy; by simplify_eq).
      change (map SDeleteID ids) with (SDeleteID <$> ids).
      rewrite <- fmap_take. apply (proj2 (Forall2_fmap_l _ _ _ _)).
      eapply (Run_partially_aligned ids _ _ _ _ _ (fun a r => R (SDeleteID a) r));
        [|exact HRun| |constructor|exact Hres].
      - intros x y Hxy. done.
      - intros k rq res Hk. specialize (Hcalls k rq res Hk).
        change (map SDeleteID ids) with (SDeleteID <$> ids) in Hcalls.
        rewrite <- fmap_drop, <- fmap_take in Hcalls.
        apply (proj1 (Forall2_fmap_l _ _ _ _)) in Hcalls. exact Hcalls. }
    split; [|done].
    apply Forall2_length in HF. rewrite length_take in HF. lia.
Qed.

(** ** Text marshalling of dates and times *)

Lemma nonempty_false (s : string) : nonempty s = false -> s = "".
Proof. by destruct s. Qed.

(** Marshalling a [Date], [Datetime] or [Time] to text and reading the
    text back into a variable of the type never fails.  For [Date] and
    [Datetime] it gives the value back, the empty one included (it
    travels as nil bytes).  For [Time] it gives every non-empty value
    back, but the empty time is written as the text null and read back
    as the four-character time "null". *)
Theorem text_round_trip (s old : string) :
  (snd (Date_MarshalText s) = None
   /\ UnmarshalText (Some old) (fst (Date_MarshalText s)) = inr s)
  /\ (snd (Datetime_MarshalText (Some s)) = None
      /\ UnmarshalText (Some old) (fst (Datetime_MarshalText (Some s))) = inr s)
  /\ (snd (Time_MarshalText s) = None
      /\ UnmarshalText (Some old) (fst (Time_MarshalText s))
         = inr (if nonempty s then s else "null")).
Proof.
  unfold Date_MarshalText, Datetime_MarshalText, Time_MarshalText.
  destruct (nonempty s) eqn:Hs; simpl; repeat split;
    by rewrite ?(nonempty_false s Hs).
Qed.

(** ** [Address] to a map and back *)

Lemma append_inj_r (p a b : string) : p +:+ a = p +:+ b -> a = b.
Proof.
  induction p as [|c p IH]; simpl; [done|]. intros H. apply IH. by injection H.
Qed.

Section AddressFacts.

Context {F : Type}.
Variable fzero : F.
Variable F_IsZero : F -> bool.

Lemma lookup_put_field_ne omitempty isZero (k k' : string) (v : AddrVal F)
    (m : gmap string (AddrVal F)) :
  k <> k' -> put_field omitempty isZero k' v m !! k = m !! k.
Proof.
  intros Hne. unfold put_field.
  destruct (negb omitempty || negb isZero); [|done]. by rewrite lookup_insert_ne.
Qed.

Lemma lookup_put_field_eq omitempty isZero (k : string) (v : AddrVal F)
    (m : gmap string (AddrVal F)) :
  put_field omitempty isZero k v m !! k
  = if negb omitempty || negb isZero then Some v else m !! k.
Proof.
  unfold put_field.
  destruct (negb omitempty || negb isZero); [|done]. by rewrite lookup_insert_eq.
Qed.

(** [ToAddress] after [ToMap] with the same prefix gives every string
    field back, whether or not empty fields were omitted, and gives a
    float field back unless it was omitted as zero, in which case the
    field is the zero float.  Without [omitempty] the address comes back
    as it was. *)
Theorem ToAddress_ToMap (a : Address F) (nm : string) (omitempty : bool) :
  ToAddress fzero nm (ToMap F_IsZero a nm omitempty)
  = {| GeocodeAccuracy := GeocodeAccuracy a;
       City := City a;
       CountryCode := CountryCode a;
       Latitude := if omitempty && F_IsZero (Latitude a) then fzero else Latitude a;
       Longitude := if omitempty && F_IsZero (Longitude a) then fzero else Longitude a;
       PostalCode := PostalCode a;
       StateCode := StateCode a;
       Street := Street a |}
  /\ (omitempty = false -> ToAddress fzero nm (ToMap F_IsZero a nm omitempty) = a).
Proof.
  assert (Hmain :
    ToAddress fzero nm (ToMap F_IsZero a nm omitempty)
    = {| GeocodeAccuracy := GeocodeAccuracy a;
         City := City a;
         CountryCode := CountryCode a;
         Latitude := if omitempty && F_IsZero (Latitude a) then fzero else Latitude a;
         Longitude := if omitempty && F_IsZero (Longitude a) then fzero else Longitude a;
         PostalCode := PostalCode a;
         StateCode := StateCode a;
         Street := Street a |}).
  { unfold ToAddress, ToMap. cbv zeta.
    f_equal;
      repeat (rewrite lookup_put_field_ne
                by (let H := fresh in intros H; apply append_inj_r in H; discriminate H));
      rewrite lookup_put_field_eq;
      repeat (rewrite lookup_put_field_ne
                by (let H := fresh in intros H; apply append_inj_r in H; discriminate H));
      rewrite ?lookup_empty;
      destruct omitempty; simpl;
      try (match goal with
           | |- context [nonempty ?s] =>
               let E := fresh in
               destruct (nonempty s) eqn:E; simpl;
               [reflexivity|by rewrite (nonempty_false s E)]
           end);
      try (match goal with
           | |- context [F_IsZero ?f] => by destruct (F_IsZero f)
           end);
      reflexivity. }
  split; [exact Hmain|].
  intros ->. rewrite Hmain. by destruct a.
Qed.

End AddressFacts.

(** ** Queries without a row cap *)

(** [WithMaxrows] with zero or a negative number sets no cap: a query
    on such a service never cuts the caller's slice, which afterwards is
    the slice before followed by the rows received. *)
Theorem query_without_cap_only_appends {W Row : Type}
    (json_Unmarshal : string -> goerror + list Row)
    (QueryEscape : string -> string)
    (Call_QueryResponse : W -> Request -> W * (goerror + Envelope))
    (fuel : nat) (sv : Service W) (n : Z) (path qry : string) (l0 : list Row)
    (w : W) (out : QueryOutcome W Row) :
  (n <= 0)%Z ->
  query json_Unmarshal QueryEscape Call_QueryResponse fuel (WithMaxrows sv n)
        path qry (ResultsSlice l0) w = Some out ->
  exists new, q_results out = ResultsSlice (l0 ++ new).
Proof.
  intros Hn Hq. unfold query in Hq. simpl in Hq.
  destruct (query_loop_shape _ _ _ _ _ _ _ _ _ _ _ l0 Hq eq_refl)
    as (new & [Hres|(Hpos & _)]).
  - by exists new.
  - simpl in Hpos. destruct (n <? 0)%Z eqn:E; lia.
Qed.

Lemma query_without_cap_only_appends_witness :
  exists new : list nat,
    ResultsSlice (seq 0 200 ++ seq 200 200 ++ seq 400 60) = ResultsSlice ([] ++ new).
Proof.
  exact (query_without_cap_only_appends ex_json_Unmarshal ex_QueryEscape
           ex_query_server 3 New (-1) "query/?q=" "firstset" [] 0 _
           ltac:(lia) eq_refl).
Defined.

(** ** When a query ends *)

Section QueryEnds.

Context {W Row : Type}.
Variable json_Unmarshal : string -> goerror + list Row.
Variable QueryEscape : string -> string.
Variable Call_QueryResponse : W -> Request -> W * (goerror + Envelope).

Lemma query_loop_capped_returns fuel (sv qsv : Service W) fmtQry
    (res : QueryResponse) (l : list Row) w calls :
  (0 < maxrows sv)%Z ->
  (forall w rq w' env,
     Call_QueryResponse w rq = (w', inr env) ->
     exists raw new,
       env_records env = Some (JArray raw) /\ json_Unmarshal raw = inr new
       /\ (new <> [] \/ env_done env = Some true)) ->
  Records res = PtrRS ->
  1 <= fuel -> Z.to_nat (maxrows sv) <= fuel + length l ->
  exists out,
    query_loop json_Unmarshal Call_QueryResponse fuel sv qsv fmtQry res
      {| resultsVal := Some l |} w calls = Some out
    /\ length (q_calls out)
       <= length calls + Nat.max 1 (Z.to_nat (maxrows sv) - length l).
Proof.
  intros Hpos Hsrv. revert fmtQry res l w calls.
  induction fuel as [|fuel IH]; intros fmtQry res l w calls Hptr Hf1 Hfuel; [lia|].
  simpl. destruct (Done res) eqn:Hd.
  { eexists. split; [done|]. simpl. lia. }
  destruct (Call_QueryResponse w _) as [w1 [err|env]] eqn:Hcall.
  { eexists. split; [done|]. simpl. rewrite length_app. simpl. lia. }
  destruct (Hsrv _ _ _ _ Hcall) as (raw & new & Hrec & Hj & Hprog).
  rewrite (decode_array json_Unmarshal env res l raw new Hptr Hrec Hj).
  unfold rows. simpl.
  destruct ((0 <? maxrows sv)%Z && (maxrows sv <=? Z.of_nat (length (l ++ new)))%Z)
    eqn:Hc.
  { eexists. split; [done|]. simpl. rewrite length_app. simpl. lia. }
  assert (Hlt : length (l ++ new) < Z.to_nat (maxrows sv)) by lia.
  rewrite length_app in Hlt.
  destruct Hprog as [Hne|Hdone].
  - assert (1 <= length new) by (destruct new; [done|simpl; lia]).
    edestruct (IH (default (NextRecordsURL res) (env_nextRecordsUrl env))
                 {| TotalSize := default (TotalSize res) (env_totalSize env);
                    Done := default (Done res) (env_done env);
                    NextRecordsURL :=
                      default (NextRecordsURL res) (env_nextRecordsUrl env);
                    Records := PtrRS |} (l ++ new) w1
                 (calls ++ [generateRequest qsv "GET" fmtQry None]))
      as (out & Hout & Hlen);
      [done|lia|rewrite length_app; lia|].
    exists out. split; [exact Hout|].
    rewrite !length_app in Hlen. simpl in Hlen. lia.
  - rewrite query_loop_done by (simpl; by rewrite Hdone).
    eexists. split; [done|]. simpl. rewrite length_app. simpl. lia.
Qed.

(** A row cap bounds the work.  When no page the server sends is both
    empty and not the last, a query with a cap of [maxrows > 0] into a
    slice of [n] rows returns after at most [max(1, maxrows - n)]
    requests. *)
Theorem capped_query_ends_within_maxrows_requests (fuel : nat) (sv : Service W)
    (path qry : string) (l0 : list Row) (w : W) :
  (0 < maxrows sv)%Z ->
  (forall w rq w' env,
     Call_QueryResponse w rq = (w', inr env) ->
     exists raw new,
       env_records env = Some (JArray raw) /\ json_Unmarshal raw = inr new
       /\ (new <> [] \/ env_done env = Some true)) ->
  Z.to_nat (maxrows sv) <= fuel ->
  exists out,
    query json_Unmarshal QueryEscape Call_QueryResponse fuel sv path qry
          (ResultsSlice l0) w = Some out
    /\ length (q_calls out) <= Nat.max 1 (Z.to_nat (maxrows sv) - length l0).
Proof.
  intros Hpos Hsrv Hfuel. unfold query. simpl.
  edestruct (query_loop_capped_returns fuel sv) as (out & Hout & Hlen);
    [exact Hpos|exact Hsrv| | | |exists out; split; [exact Hout|exact Hlen]];
    [done|lia|lia].
Qed.

(** Without a row cap only the server ends a query.  If every request
    is answered, never with done set, and every answer decodes, then the
    loop of an uncapped query into a slice does not end: whatever number
    of pages it is allowed, it wants another. *)
Theorem uncapped_query_runs_until_done (fuel : nat) (sv : Service W)
    (path qry : string) (l0 : list Row) (w : W) :
  (maxrows sv <= 0)%Z ->
  (forall w rq,
     exists w' env,
       Call_QueryResponse w rq = (w', inr env)
       /\ env_done env <> Some true
       /\ match env_records env with
          | Some (JArray raw) => exists new, json_Unmarshal raw = inr new
          | Some JNull => False
          | None => True
          end) ->
  query json_Unmarshal QueryEscape Call_QueryResponse fuel sv path qry
        (ResultsSlice l0) w = None.
Proof.
  intros Hcap Hsrv. unfold query. simpl.
  generalize (path +:+ QueryEscape qry). intros fmtQry.
  generalize (@nil Request). revert fmtQry w.
  assert (Hgen : forall fmtQry w (res : QueryResponse) l calls,
    Done res = false -> Records res = PtrRS ->
    query_loop json_Unmarshal Call_QueryResponse fuel sv
      {| isqry := true; batchSize := batchSize sv; maxrows := maxrows sv;
         logger := logger sv |} fmtQry res {| resultsVal := Some l |} w calls = None).
  { induction fuel as [|fuel IH]; intros fmtQry w res l calls Hd Hptr; simpl;
      rewrite Hd; [done|].
    destruct (Hsrv w (generateRequest
                        {| isqry := true; batchSize := batchSize sv;
                           maxrows := maxrows sv; logger := logger sv |}
                        "GET" fmtQry None)) as (w1 & env & -> & Hnd & Hrec).
    assert (Hnocap : forall n, (0 <? maxrows sv)%Z && (maxrows sv <=? n)%Z = false).
    { intros n. destruct (0 <? maxrows sv)%Z eqn:E; [lia|done]. }
    assert (Hd' : default (Done res) (env_done env) = false).
    { rewrite Hd. destruct (env_done env) as [[|]|]; done. }
    unfold decode. destruct (env_records env) as [[|raw]|]; [done| |].
    - destruct Hrec as [new Hj]. rewrite Hptr. simpl. rewrite Hj.
      rewrite Hnocap. by apply IH.
    - rewrite Hnocap. apply IH; [done|]. by rewrite Hptr. }
  intros fmtQry w0 calls. by apply Hgen.
Qed.

End QueryEnds.

Lemma ex_pages_are_never_empty :
  forall (w : nat) rq w' env,
    ex_query_server w rq = (w', inr env) ->
    exists raw new,
      env_records env = Some (JArray raw) /\ ex_json_Unmarshal raw = inr new
      /\ (new <> [] \/ env_done env = Some true).
Proof.
  intros w rq w' env. unfold ex_query_server.
  repeat case_decide; intros Hcall; simplify_eq.
  - exists "page1", (seq 0 200). repeat split. by left.
  - exists "page2", (seq 200 200). repeat split. by left.
  - exists "page3", (seq 400 60). repeat split. by left.
Qed.

Lemma capped_query_ends_within_maxrows_requests_witness :
  exists out,
    query ex_json_Unmarshal ex_QueryEscape ex_query_server 8 ex_sv_capped
          "query/?q=" "firstset" (ResultsSlice []) 0 = Some out
    /\ length (q_calls out) <= Nat.max 1 (Z.to_nat (maxrows ex_sv_capped) - 0).
Proof.
  apply (capped_query_ends_within_maxrows_requests ex_json_Unmarshal ex_QueryEscape
           ex_query_server 8 ex_sv_capped "query/?q=" "firstset" [] 0).
  - reflexivity.
  - exact ex_pages_are_never_empty.
  - simpl. lia.
Defined.

Lemma uncapped_query_runs_until_done_witness :
  query (fun _ : string => inr [0]) ex_QueryEscape
        (fun (w : nat) (_ : Request) =>
           (S w, inr (mkEnvelope None None (Some "/query/next") (Some (JArray "rows")))))
        5 New "query/?q=" "firstset" (ResultsSlice []) 0 = None.
Proof.
  apply (uncapped_query_runs_until_done (fun _ : string => inr [0]) ex_QueryEscape
           (fun (w : nat) (_ : Request) =>
              (S w, inr (mkEnvelope None None (Some "/query/next")
                                    (Some (JArray "rows")))))
           5 New "query/?q=" "firstset" [] 0).
  - simpl. lia.
  - intros w rq. eexists _, _. split; [reflexivity|]. split; [discriminate|].
    simpl. by eexists.
Defined.
